(** * Silhouette live preview: a shallow embedding of [LivePreview] and of
    [SecuritySandbox.checkFilePermission]

    Source: [main-process/sandbox-system/security-sandbox.js] (the file holds
    both classes).  JavaScript maps keyed by project id are [gmap string _],
    JavaScript [Set]s of live objects are duplicate-free lists in insertion
    order, and the event loop is an explicit input alphabet: every callback
    that Node can run (a timer, a watcher event, a socket event, the end of a
    child process, an API call) is one input of [LivePreview.step]. *)

From stdpp Require Import gmap strings list fin_maps.
From Stdlib Require Import Ascii String.

Set Default Proof Using "Type".

(** ** JavaScript string primitives *)

Module JsString.

(** [s.startsWith(p)] *)
Fixpoint startsWith (s p : string) {struct p} : bool :=
  match p with
  | EmptyString => true
  | String c p' =>
      match s with
      | EmptyString => false
      | String d s' => Ascii.eqb c d && startsWith s' p'
      end
  end.

(** [s.includes(pat)]: [pat] occurs at some offset of [s]. *)
Fixpoint includes (s pat : string) : bool :=
  startsWith s pat ||
  match s with
  | EmptyString => false
  | String _ rest => includes rest pat
  end.

(** [s.replace(/\\/g, '/')] *)
Definition backslash : ascii := ascii_of_nat 92.
Definition slash : ascii := ascii_of_nat 47.

Fixpoint replace_backslashes (s : string) : string :=
  match s with
  | EmptyString => EmptyString
  | String c rest =>
      String (if Ascii.eqb c backslash then slash else c) (replace_backslashes rest)
  end.

(** Occurrence of one character, used to speak of paths without [*]. *)
Fixpoint has_char (c : ascii) (s : string) : bool :=
  match s with
  | EmptyString => false
  | String d rest => Ascii.eqb c d || has_char c rest
  end.

End JsString.

(** ** The live preview system *)

Module LivePreview.
Import JsString.

(** *** Data *)

(** The third argument of [handleFileChange]: the watcher maps chokidar's
    [change], [add] and [unlink] to these. *)
Inductive ChangeType := modified | added | removed.

(** [project.config]: [typescript] is read as a flag; [proxy] is the object
    whose [Object.entries] are mounted in order (path, target). *)
Record ProjectConfig := {
  typescript : bool;
  proxy : list (string * string)
}.

Record Project := {
  p_id : string;
  p_name : string;
  p_path : string;
  p_config : ProjectConfig
}.

(** [changeInfo] of [handleFileChange]. *)
Record ChangeInfo := {
  ci_projectId : string;
  ci_filePath : string;
  ci_absolutePath : string;
  ci_type : ChangeType;
  ci_timestamp : nat
}.

(** What [startProjectServer] resolves to: the object literal
    [{ server, port }].  It is a plain object, with no method of its own. *)
Record ServerBinding := {
  sb_server : nat;
  sb_port : nat
}.

(** An entry of [previewServers], as [setupProject] writes it: its [server]
    field holds the whole [{ server, port }] object. *)
Record ServerInfo := {
  si_project : Project;
  si_url : string;
  si_server : ServerBinding;
  si_port : nat;
  si_status : string;
  si_startTime : nat
}.

(** The JSON messages the system sends over a socket, by their [type]. *)
Inductive Message :=
  | MProjectState (id url status : string) (port : nat)
  | MProjectsList (projects : list (string * string * string * string))
  | MProjectAdded (id name url status : string)
  | MFileChange (change : ChangeInfo)
  | MRebuildComplete (projectId trigger : string) (timestamp : nat)
  | MRebuildError (projectId error : string) (timestamp : nat)
  | MWatcherError (projectId error : string) (timestamp : nat)
  | MPreviewStarted (projectId url : string) (timestamp : nat)
  | MPreviewStopped (projectId : string) (timestamp : nat).

Inductive ReadyState := OPEN | CLOSING | CLOSED.

(** A WebSocket as the server sees it: its state, the [projectId] its
    handlers close over, and what has been sent to it so far. *)
Record Socket := {
  ws_readyState : ReadyState;
  ws_project : option string;
  ws_inbox : list Message
}.

(** An [http.Server] created by [startProjectServer]. *)
Record HttpServer := {
  hs_project : Project;
  hs_port : nat;
  hs_listening : bool
}.

(** A chokidar watcher; its handlers close over the project. *)
Record Watcher := {
  w_project : Project;
  w_open : bool
}.

(** A pending [setTimeout] of [debouncedRebuild]; the callback closes over
    the project. *)
Record Timer := {
  t_id : nat;
  t_deadline : nat;
  t_project : Project
}.

(** A [rebuildProject] call suspended at [await this.compileTypeScript]. *)
Record Job := {
  j_id : nat;
  j_project : Project;
  j_trigger : string
}.

(** [this.emit(...)] calls. *)
Inductive Emitted :=
  | EProjectSetup (p : Project) (url : string)
  | EFileChange (change : ChangeInfo)
  | ERebuildComplete (p : Project) (trigger : string)
  | ERebuildError (p : Project) (error : string)
  | EServerUpdate (p : Project) (server : ServerBinding)
  | EPreviewStarted (p : Project) (url : string)
  | EPreviewStopped (projectId : string).

(** The console lines that trace rebuilds and teardown. *)
Inductive LogLine :=
  | LFileChangeDetected (relativePath : string) (ty : ChangeType)
  | LRebuilding (p : Project) (trigger : string)
  | LRebuilt (p : Project)
  | LRebuildFailed (p : Project) (error : string)
  | LCompiled
  | LCompileFailed (error : string)
  | LWatcherError (p : Project) (error : string)
  | LPreviewStopped (projectId : string)
  | LStopFailed (projectId : string) (error : string)
  | LDisposed.

(** What a call does: it returns, or it throws. *)
Inductive Outcome := Returned | Thrown (error : string).

#[global] Instance ChangeType_eq_dec : EqDecision ChangeType.
Proof. solve_decision. Defined.
#[global] Instance ProjectConfig_eq_dec : EqDecision ProjectConfig.
Proof. solve_decision. Defined.
#[global] Instance Project_eq_dec : EqDecision Project.
Proof. solve_decision. Defined.
#[global] Instance ChangeInfo_eq_dec : EqDecision ChangeInfo.
Proof. solve_decision. Defined.
#[global] Instance Message_eq_dec : EqDecision Message.
Proof. solve_decision. Defined.
#[global] Instance ReadyState_eq_dec : EqDecision ReadyState.
Proof. solve_decision. Defined.

(** The fields of the [LivePreview] object, then the runtime around it (the
    clock, the handle allocator, pending timers, the sockets, servers and
    watchers that exist, suspended rebuilds), then what was emitted and
    logged. *)
Record State := {
  previewServers : gmap string ServerInfo;
  projectWatchers : gmap string nat;
  connections : gmap string (list nat);
  rebuildQueue : list ChangeInfo;
  rebuildTimeouts : gmap string nat;
  staticRoutes : list (string * string);
  now : nat;
  nextHandle : nat;
  timers : list Timer;
  sockets : gmap nat Socket;
  httpServers : gmap nat HttpServer;
  watchers : gmap nat Watcher;
  jobs : list Job;
  emitted : list Emitted;
  console : list LogLine
}.

(** The state after the constructor. *)
Definition initial : State :=
  {| previewServers := ∅; projectWatchers := ∅; connections := ∅;
     rebuildQueue := []; rebuildTimeouts := ∅; staticRoutes := [];
     now := 0; nextHandle := 0; timers := []; sockets := ∅;
     httpServers := ∅; watchers := ∅; jobs := []; emitted := [];
     console := [] |}.

(** Field updates. *)
Definition upd_previewServers (f : gmap string ServerInfo → gmap string ServerInfo) (s : State) : State :=
  {| previewServers := f (previewServers s); projectWatchers := projectWatchers s;
     connections := connections s; rebuildQueue := rebuildQueue s;
     rebuildTimeouts := rebuildTimeouts s; staticRoutes := staticRoutes s; now := now s;
     nextHandle := nextHandle s; timers := timers s; sockets := sockets s;
     httpServers := httpServers s; watchers := watchers s; jobs := jobs s;
     emitted := emitted s; console := console s |}.

Definition upd_projectWatchers (f : gmap string nat → gmap string nat) (s : State) : State :=
  {| previewServers := previewServers s; projectWatchers := f (projectWatchers s);
     connections := connections s; rebuildQueue := rebuildQueue s;
     rebuildTimeouts := rebuildTimeouts s; staticRoutes := staticRoutes s; now := now s;
     nextHandle := nextHandle s; timers := timers s; sockets := sockets s;
     httpServers := httpServers s; watchers := watchers s; jobs := jobs s;
     emitted := emitted s; console := console s |}.

Definition upd_connections (f : gmap string (list nat) → gmap string (list nat)) (s : State) : State :=
  {| previewServers := previewServers s; projectWatchers := projectWatchers s;
     connections := f (connections s); rebuildQueue := rebuildQueue s;
     rebuildTimeouts := rebuildTimeouts s; staticRoutes := staticRoutes s; now := now s;
     nextHandle := nextHandle s; timers := timers s; sockets := sockets s;
     httpServers := httpServers s; watchers := watchers s; jobs := jobs s;
     emitted := emitted s; console := console s |}.

Definition upd_rebuildQueue (f : list ChangeInfo → list ChangeInfo) (s : State) : State :=
  {| previewServers := previewServers s; projectWatchers := projectWatchers s;
     connections := connections s; rebuildQueue := f (rebuildQueue s);
     rebuildTimeouts := rebuildTimeouts s; staticRoutes := staticRoutes s; now := now s;
     nextHandle := nextHandle s; timers := timers s; sockets := sockets s;
     httpServers := httpServers s; watchers := watchers s; jobs := jobs s;
     emitted := emitted s; console := console s |}.

Definition upd_rebuildTimeouts (f : gmap string nat → gmap string nat) (s : State) : State :=
  {| previewServers := previewServers s; projectWatchers := projectWatchers s;
     connections := connections s; rebuildQueue := rebuildQueue s;
     rebuildTimeouts := f (rebuildTimeouts s); staticRoutes := staticRoutes s;
     now := now s; nextHandle := nextHandle s; timers := timers s; sockets := sockets s;
     httpServers := httpServers s; watchers := watchers s; jobs := jobs s;
     emitted := emitted s; console := console s |}.

Definition upd_staticRoutes (f : list (string * string) → list (string * string)) (s : State) : State :=
  {| previewServers := previewServers s; projectWatchers := projectWatchers s;
     connections := connections s; rebuildQueue := rebuildQueue s;
     rebuildTimeouts := rebuildTimeouts s; staticRoutes := f (staticRoutes s);
     now := now s; nextHandle := nextHandle s; timers := timers s; sockets := sockets s;
     httpServers := httpServers s; watchers := watchers s; jobs := jobs s;
     emitted := emitted s; console := console s |}.

Definition upd_now (f : nat → nat) (s : State) : State :=
  {| previewServers := previewServers s; projectWatchers := projectWatchers s;
     connections := connections s; rebuildQueue := rebuildQueue s;
     rebuildTimeouts := rebuildTimeouts s; staticRoutes := staticRoutes s;
     now := f (now s); nextHandle := nextHandle s; timers := timers s;
     sockets := sockets s; httpServers := httpServers s; watchers := watchers s;
     jobs := jobs s; emitted := emitted s; console := console s |}.

Definition upd_nextHandle (f : nat → nat) (s : State) : State :=
  {| previewServers := previewServers s; projectWatchers := projectWatchers s;
     connections := connections s; rebuildQueue := rebuildQueue s;
     rebuildTimeouts := rebuildTimeouts s; staticRoutes := staticRoutes s; now := now s;
     nextHandle := f (nextHandle s); timers := timers s; sockets := sockets s;
     httpServers := httpServers s; watchers := watchers s; jobs := jobs s;
     emitted := emitted s; console := console s |}.

Definition upd_timers (f : list Timer → list Timer) (s : State) : State :=
  {| previewServers := previewServers s; projectWatchers := projectWatchers s;
     connections := connections s; rebuildQueue := rebuildQueue s;
     rebuildTimeouts := rebuildTimeouts s; staticRoutes := staticRoutes s; now := now s;
     nextHandle := nextHandle s; timers := f (timers s); sockets := sockets s;
     httpServers := httpServers s; watchers := watchers s; jobs := jobs s;
     emitted := emitted s; console := console s |}.

Definition upd_sockets (f : gmap nat Socket → gmap nat Socket) (s : State) : State :=
  {| previewServers := previewServers s; projectWatchers := projectWatchers s;
     connections := connections s; rebuildQueue := rebuildQueue s;
     rebuildTimeouts := rebuildTimeouts s; staticRoutes := staticRoutes s; now := now s;
     nextHandle := nextHandle s; timers := timers s; sockets := f (sockets s);
     httpServers := httpServers s; watchers := watchers s; jobs := jobs s;
     emitted := emitted s; console := console s |}.

Definition upd_httpServers (f : gmap nat HttpServer → gmap nat HttpServer) (s : State) : State :=
  {| previewServers := previewServers s; projectWatchers := projectWatchers s;
     connections := connections s; rebuildQueue := rebuildQueue s;
     rebuildTimeouts := rebuildTimeouts s; staticRoutes := staticRoutes s; now := now s;
     nextHandle := nextHandle s; timers := timers s; sockets := sockets s;
     httpServers := f (httpServers s); watchers := watchers s; jobs := jobs s;
     emitted := emitted s; console := console s |}.

Definition upd_watchers (f : gmap nat Watcher → gmap nat Watcher) (s : State) : State :=
  {| previewServers := previewServers s; projectWatchers := projectWatchers s;
     connections := connections s; rebuildQueue := rebuildQueue s;
     rebuildTimeouts := rebuildTimeouts s; staticRoutes := staticRoutes s; now := now s;
     nextHandle := nextHandle s; timers := timers s; sockets := sockets s;
     httpServers := httpServers s; watchers := f (watchers s); jobs := jobs s;
     emitted := emitted s; console := console s |}.

Definition upd_jobs (f : list Job → list Job) (s : State) : State :=
  {| previewServers := previewServers s; projectWatchers := projectWatchers s;
     connections := connections s; rebuildQueue := rebuildQueue s;
     rebuildTimeouts := rebuildTimeouts s; staticRoutes := staticRoutes s; now := now s;
     nextHandle := nextHandle s; timers := timers s; sockets := sockets s;
     httpServers := httpServers s; watchers := watchers s; jobs := f (jobs s);
     emitted := emitted s; console := console s |}.

Definition upd_emitted (f : list Emitted → list Emitted) (s : State) : State :=
  {| previewServers := previewServers s; projectWatchers := projectWatchers s;
     connections := connections s; rebuildQueue := rebuildQueue s;
     rebuildTimeouts := rebuildTimeouts s; staticRoutes := staticRoutes s; now := now s;
     nextHandle := nextHandle s; timers := timers s; sockets := sockets s;
     httpServers := httpServers s; watchers := watchers s; jobs := jobs s;
     emitted := f (emitted s); console := console s |}.

Definition upd_console (f : list LogLine → list LogLine) (s : State) : State :=
  {| previewServers := previewServers s; projectWatchers := projectWatchers s;
     connections := connections s; rebuildQueue := rebuildQueue s;
     rebuildTimeouts := rebuildTimeouts s; staticRoutes := staticRoutes s; now := now s;
     nextHandle := nextHandle s; timers := timers s; sockets := sockets s;
     httpServers := httpServers s; watchers := watchers s; jobs := jobs s;
     emitted := emitted s; console := f (console s) |}.

(** [rebuildConfig.debounceTime] *)
Definition debounceTime : nat := 300.

(** [watchPatterns.exclude] *)
Definition exclude : list string :=
  [ "node_modules/**/*"; "dist/**/*"; "build/**/*"; ".git/**/*";
    "**/*.log"; "**/.DS_Store"; "**/.env" ].

(** The substrings [shouldIgnoreFile] tests one by one after the patterns. *)
Definition markers : list string :=
  [ "node_modules"; "dist"; "build"; ".git"; ".tmp"; ".swp" ].

(** *** [shouldIgnoreFile] *)

Definition shouldIgnoreFile (filePath : string) : bool :=
  let normalizedPath := replace_backslashes filePath in
  if existsb (λ pattern, includes normalizedPath pattern) exclude then true
  else if includes normalizedPath "node_modules" then true
  else if includes normalizedPath "dist" then true
  else if includes normalizedPath "build" then true
  else if includes normalizedPath ".git" then true
  else if includes normalizedPath ".tmp" || includes normalizedPath ".swp" then true
  else false.

(** *** Sockets and broadcasts *)

(** [if (ws.readyState === ws.OPEN) ws.send(messageStr)] *)
Definition deliver (m : Message) (sock : Socket) : Socket :=
  match ws_readyState sock with
  | OPEN =>
      {| ws_readyState := OPEN; ws_project := ws_project sock;
         ws_inbox := ws_inbox sock ++ [m] |}
  | _ => sock
  end.

(** [ws.close()] called by the server. *)
Definition closeSocket (sock : Socket) : Socket :=
  match ws_readyState sock with
  | OPEN =>
      {| ws_readyState := CLOSING; ws_project := ws_project sock;
         ws_inbox := ws_inbox sock |}
  | _ => sock
  end.

(** The socket's close event: it is closed for good. *)
Definition closedSocket (sock : Socket) : Socket :=
  {| ws_readyState := CLOSED; ws_project := ws_project sock;
     ws_inbox := ws_inbox sock |}.

(** [for (const ws of conns) ...] over one set of sockets. *)
Definition sendAll (conns : list nat) (m : Message)
    (socks : gmap nat Socket) : gmap nat Socket :=
  foldl (λ acc ws, alter (deliver m) ws acc) socks conns.

Definition closeAll (conns : list nat)
    (socks : gmap nat Socket) : gmap nat Socket :=
  foldl (λ acc ws, alter closeSocket ws acc) socks conns.

(** [Set.prototype.add] and [Set.prototype.delete] on insertion-ordered sets. *)
Definition setAdd (x : nat) (l : list nat) : list nat :=
  if decide (x ∈ l) then l else l ++ [x].

Definition setDelete (x : nat) (l : list nat) : list nat :=
  filter (λ y, y ≠ x) l.

Definition broadcastToProject (projectId : string) (m : Message) (s : State) : State :=
  match connections s !! projectId with
  | Some conns => upd_sockets (sendAll conns m) s
  | None => s
  end.

(** [for (const conns of this.connections.values())]: every set of every
    project id.  The sets are visited in the map's key order here and in
    insertion order in JavaScript; the sends to distinct sockets commute. *)
Definition allConnections (s : State) : list (list nat) :=
  (map_to_list (connections s)).*2.

Definition broadcastGlobal (m : Message) (s : State) : State :=
  upd_sockets (λ socks, foldl (λ acc conns, sendAll conns m acc) socks (allConnections s)) s.

Definition emit (e : Emitted) : State → State := upd_emitted (λ l, l ++ [e]).
Definition log (l : LogLine) : State → State := upd_console (λ c, c ++ [l]).

(** A fresh object identity (socket, server, watcher, timer, job). *)
Definition fresh (s : State) : nat * State := (nextHandle s, upd_nextHandle S s).

Section WithPath.

(** [path.relative(from, to)] of Node's [path] module. *)
Variable path_relative : string → string → string.

(** *** Project setup *)

(** [startProjectServer]: an express app is built for the project (its
    routing is [ProjectServer.handle] below), a port is obtained from
    [getAvailablePort] (here the argument [port]) and the server listens. *)
Definition startProjectServer (project : Project) (port : nat) (s : State)
    : ServerBinding * State :=
  let '(server, s) := fresh s in
  let s := upd_httpServers
             <[server := {| hs_project := project; hs_port := port;
                            hs_listening := true |}]> s in
  ({| sb_server := server; sb_port := port |}, s).

Definition setupProjectWatcher (project : Project) (s : State) : State :=
  let '(watcher, s) := fresh s in
  let s := upd_watchers <[watcher := {| w_project := project; w_open := true |}]> s in
  upd_projectWatchers <[p_id project := watcher]> s.

Definition registerProjectRoute (project : Project) (url : string) (s : State) : State :=
  let s := upd_staticRoutes (λ r, r ++ [(url, p_path project)]) s in
  broadcastToProject (p_id project)
    (MProjectAdded (p_id project) (p_name project) url "ready") s.

Definition projectUrlOf (project : Project) : string := "/projects/" +:+ p_id project.

(** [setupProject].  A call is one step of the model: what it awaits (the
    free port, the server listening) is not interleaved with other inputs. *)
Definition setupProject (project : Project) (port : nat) (s : State) : State :=
  let projectUrl := projectUrlOf project in
  let '(serverInfo, s) := startProjectServer project port s in
  let s := setupProjectWatcher project s in
  let s := upd_connections <[p_id project := []]> s in
  let s := registerProjectRoute project projectUrl s in
  let s := upd_previewServers
             <[p_id project := {| si_project := project; si_url := projectUrl;
                                  si_server := serverInfo;
                                  si_port := sb_port serverInfo;
                                  si_status := "ready";
                                  si_startTime := now s |}]> s in
  emit (EProjectSetup project projectUrl) s.

Definition startPreview (project : Project) (port : nat) (s : State) : State :=
  let s := setupProject project port s in
  let s := broadcastToProject (p_id project)
             (MPreviewStarted (p_id project) (projectUrlOf project) (now s)) s in
  emit (EPreviewStarted project (projectUrlOf project)) s.

(** *** Rebuilds *)

Definition updateProjectServer (project : Project) (s : State) : State :=
  match previewServers s !! p_id project with
  | Some serverInfo => emit (EServerUpdate project (si_server serverInfo)) s
  | None => s
  end.

(** The part of [rebuildProject] after [compileTypeScript] has returned. *)
Definition finishRebuild (project : Project) (trigger : string) (s : State) : State :=
  let s := updateProjectServer project s in
  let s := broadcastToProject (p_id project)
             (MRebuildComplete (p_id project) trigger (now s)) s in
  let s := emit (ERebuildComplete project trigger) s in
  log (LRebuilt project) s.

(** The [catch] block of [rebuildProject]. *)
Definition failRebuild (project : Project) (error : string) (s : State) : State :=
  let s := log (LRebuildFailed project error) s in
  let s := broadcastToProject (p_id project)
             (MRebuildError (p_id project) error (now s)) s in
  emit (ERebuildError project error) s.

(** [rebuildProject] up to its first real suspension.  With
    [config.typescript] it stops at [await execAsync('npx tsc')] and the call
    becomes a [Job]; otherwise its awaits resolve within the same turn of the
    event loop and it runs to its end. *)
Definition rebuildProject (project : Project) (trigger : string) (s : State) : State :=
  let s := log (LRebuilding project trigger) s in
  match previewServers s !! p_id project with
  | None => failRebuild project "Preview server not found for project" s
  | Some _ =>
      if typescript (p_config project) then
        let '(j, s) := fresh s in
        upd_jobs (λ js, js ++ [{| j_id := j; j_project := project;
                                   j_trigger := trigger |}]) s
      else finishRebuild project trigger s
  end.

(** [npx tsc] has ended for job [j]: [result] is [None] when it succeeded and
    the error message when it failed.  [compileTypeScript] catches the
    failure and returns normally in both cases. *)
Definition compileDone (j : nat) (result : option string) (s : State) : State :=
  match List.find (λ job, Nat.eqb (j_id job) j) (jobs s) with
  | None => s
  | Some job =>
      let s := upd_jobs (filter (λ job', j_id job' ≠ j)) s in
      let s := log (match result with
                    | None => LCompiled
                    | Some error => LCompileFailed error
                    end) s in
      finishRebuild (j_project job) (j_trigger job) s
  end.

(** *** Debouncing *)

Definition clearTimeout (t : nat) (s : State) : State :=
  upd_timers (filter (λ tm, t_id tm ≠ t)) s.

Definition debouncedRebuild (project : Project) (changeInfo : ChangeInfo)
    (s : State) : State :=
  let s := match rebuildTimeouts s !! p_id project with
           | Some t => clearTimeout t s
           | None => s
           end in
  let '(t, s) := fresh s in
  let s := upd_timers (λ ts, ts ++ [{| t_id := t;
                                       t_deadline := now s + debounceTime;
                                       t_project := project |}]) s in
  upd_rebuildTimeouts <[p_id project := t]> s.

Definition changeInfoOf (project : Project) (filePath : string) (ty : ChangeType)
    (s : State) : ChangeInfo :=
  {| ci_projectId := p_id project;
     ci_filePath := path_relative (p_path project) filePath;
     ci_absolutePath := filePath;
     ci_type := ty;
     ci_timestamp := now s |}.

Definition handleFileChange (project : Project) (filePath : string)
    (ty : ChangeType) (s : State) : State :=
  let changeInfo := changeInfoOf project filePath ty s in
  let s := log (LFileChangeDetected (ci_filePath changeInfo) ty) s in
  let s := upd_rebuildQueue (λ q, q ++ [changeInfo]) s in
  let s := debouncedRebuild project changeInfo s in
  let s := broadcastToProject (p_id project) (MFileChange changeInfo) s in
  emit (EFileChange changeInfo) s.

Definition handleWatcherError (project : Project) (error : string) (s : State) : State :=
  let s := log (LWatcherError project error) s in
  broadcastToProject (p_id project) (MWatcherError (p_id project) error (now s)) s.

(** *** WebSocket connections *)

(** The entries of [previewServers] as the [projects-list] message carries
    them: id, name, url, status. *)
Definition projectsList (s : State) : list (string * string * string * string) :=
  (λ '(id, info), (id, p_name (si_project info), si_url info, si_status info))
    <$> map_to_list (previewServers s).

(** [handleWebSocketConnection]: [param] is
    [url.searchParams.get('project')], [None] for [null].  The empty string
    is falsy, so [?project=] opens a global connection. *)
Definition handleWebSocketConnection (param : option string) (s : State) : State :=
  let '(ws, s) := fresh s in
  match param with
  | Some (String c rest as projectId) =>
      let s := upd_sockets <[ws := {| ws_readyState := OPEN;
                                      ws_project := Some projectId;
                                      ws_inbox := [] |}]> s in
      let s := match connections s !! projectId with
               | Some _ => s
               | None => upd_connections <[projectId := []]> s
               end in
      let s := upd_connections (alter (setAdd ws) projectId) s in
      match previewServers s !! projectId with
      | Some projectServer =>
          upd_sockets (alter (deliver (MProjectState projectId (si_url projectServer)
                                         (si_status projectServer)
                                         (si_port projectServer))) ws) s
      | None => s
      end
  | _ =>
      upd_sockets <[ws := {| ws_readyState := OPEN; ws_project := None;
                             ws_inbox := [MProjectsList (projectsList s)] |}]> s
  end.

(** The handler of the socket's [close] event. *)
Definition socketClosed (ws : nat) (s : State) : State :=
  match sockets s !! ws with
  | None => s
  | Some sock =>
      let s := upd_sockets (alter closedSocket ws) s in
      match ws_project sock with
      | Some projectId =>
          match connections s !! projectId with
          | Some _ => upd_connections (alter (setDelete ws) projectId) s
          | None => s
          end
      | None => s
      end
  end.

(** *** Teardown *)

Definition closeWatcher (w : Watcher) : Watcher :=
  {| w_project := w_project w; w_open := false |}.

(** [stopPreview].  The entry's [server] field is the [{ server, port }]
    object of [startProjectServer], which is truthy and has no [close]
    method: when the entry exists, [serverInfo.server.close()] throws a
    [TypeError], the [catch] block logs it and throws it again, and the
    statements after it do not run. *)
Definition stopPreview (projectId : string) (s : State) : State * Outcome :=
  let s := match projectWatchers s !! projectId with
           | Some watcher =>
               let s := upd_watchers (alter closeWatcher watcher) s in
               upd_projectWatchers (delete projectId) s
           | None => s
           end in
  let s := match connections s !! projectId with
           | Some conns =>
               let s := upd_sockets (closeAll conns) s in
               upd_connections (delete projectId) s
           | None => s
           end in
  match previewServers s !! projectId with
  | Some serverInfo =>
      let error := "serverInfo.server.close is not a function" in
      (log (LStopFailed projectId error) s, Thrown error)
  | None =>
      let s := upd_previewServers (delete projectId) s in
      let s := broadcastGlobal (MPreviewStopped projectId (now s)) s in
      let s := emit (EPreviewStopped projectId) s in
      (log (LPreviewStopped projectId) s, Returned)
  end.

(** [dispose].  The loop over [previewServers.values()] calls the same
    missing [close] method, so it throws at the first entry; the four
    [clear()] calls run only when there is no entry. *)
Definition dispose (s : State) : State * Outcome :=
  let s := upd_watchers
             (λ ws, foldl (λ acc w, alter closeWatcher w acc) ws
                      ((map_to_list (projectWatchers s)).*2)) s in
  let s := upd_sockets
             (λ socks, foldl (λ acc conns, closeAll conns acc) socks
                         (allConnections s)) s in
  if decide (previewServers s = ∅) then
    let s := upd_previewServers (λ _, ∅) s in
    let s := upd_projectWatchers (λ _, ∅) s in
    let s := upd_connections (λ _, ∅) s in
    let s := upd_rebuildQueue (λ _, []) s in
    (log LDisposed s, Returned)
  else (s, Thrown "serverInfo.server.close is not a function").

(** *** The event loop *)

(** What can happen next. *)
Inductive Input :=
  | ISetupProject (project : Project) (port : nat)
  | IStartPreview (project : Project) (port : nat)
  | IStopPreview (projectId : string)
  | IRebuildProject (project : Project) (trigger : string)
  | IFsEvent (watcher : nat) (filePath : string) (ty : ChangeType)
  | IWatcherError (watcher : nat) (error : string)
  | ICompileDone (job : nat) (result : option string)
  | IWsConnect (param : option string)
  | IWsClosed (ws : nat)
  | IAdvance (ms : nat)
  | IDispose.

#[global] Instance Input_eq_dec : EqDecision Input.
Proof. solve_decision. Defined.

(** A raw event of a watcher: chokidar asks [ignored] first, and a closed
    watcher emits nothing. *)
Definition fsEvent (watcher : nat) (filePath : string) (ty : ChangeType)
    (s : State) : State :=
  match watchers s !! watcher with
  | Some w =>
      if w_open w && negb (shouldIgnoreFile filePath)
      then handleFileChange (w_project w) filePath ty s
      else s
  | None => s
  end.

Definition watcherError (watcher : nat) (error : string) (s : State) : State :=
  match watchers s !! watcher with
  | Some w => if w_open w then handleWatcherError (w_project w) error s else s
  | None => s
  end.

(** A timer's callback: [this.rebuildProject(project, 'file-change')]. *)
Definition fire (s : State) (t : Timer) : State :=
  rebuildProject (t_project t) "file-change" (upd_now (Nat.max (t_deadline t)) s).

(** [ms] milliseconds pass: the timers that are due run, oldest first (all
    delays are equal, so that is deadline order), and leave the timer
    table. *)
Definition advance (ms : nat) (s : State) : State :=
  let t' := now s + ms in
  let due := filter (λ t, t_deadline t ≤ t') (timers s) in
  let s := upd_timers (filter (λ t, ¬ t_deadline t ≤ t')) s in
  let s := foldl fire s due in
  upd_now (λ _, t') s.

Definition step (s : State) (i : Input) : State :=
  match i with
  | ISetupProject project port => setupProject project port s
  | IStartPreview project port => startPreview project port s
  | IStopPreview projectId => (stopPreview projectId s).1
  | IRebuildProject project trigger => rebuildProject project trigger s
  | IFsEvent watcher filePath ty => fsEvent watcher filePath ty s
  | IWatcherError watcher error => watcherError watcher error s
  | ICompileDone job result => compileDone job result s
  | IWsConnect param => handleWebSocketConnection param s
  | IWsClosed ws => socketClosed ws s
  | IAdvance ms => advance ms s
  | IDispose => (dispose s).1
  end.

Definition run (s : State) (inputs : list Input) : State := foldl step s inputs.

(** The states the system can be in. *)
Definition reachable (s : State) : Prop := ∃ inputs, s = run initial inputs.

End WithPath.

End LivePreview.

(** ** The express application of a project *)

Module ProjectServer.
Import LivePreview.

Inductive Method := GET | HEAD | POST | PUT | DELETE.

Record Request := {
  req_method : Method;
  req_path : string
}.

(** What answers a request: a file sent by [express.static], the proxy to a
    target, the file sent by the [app.get('*')] handler, or nothing (express
    answers 404 itself). *)
Inductive Response :=
  | Static (file : string)
  | Proxied (target : string)
  | SendFile (file : string)
  | Unhandled.

Section WithExpress.

(** [express.static(root)]: the file it sends for a method and a path, or
    [None] when it hands the request on. *)
Variable serveStatic : string → Method → string → option string.

(** [app.use(mount, ...)]: whether the layer takes a request path, and the
    path the mounted middleware then sees. *)
Variable mounted : string → string → option string.

(** [path.join] *)
Variable path_join : string → string → string.

(** [app.get('*', ...)] runs for GET, and for HEAD as express routes it. *)
Definition isGet (m : Method) : bool :=
  match m with GET | HEAD => true | _ => false end.

(** The layers of the app in the order [startProjectServer] adds them. *)
Definition handle (project : Project) (req : Request) : Response :=
  match serveStatic (p_path project) (req_method req) (req_path req) with
  | Some file => Static file
  | None =>
      let dist :=
        if typescript (p_config project) then
          match mounted "/dist" (req_path req) with
          | Some rest =>
              serveStatic (path_join (p_path project) "dist") (req_method req) rest
          | None => None
          end
        else None in
      match dist with
      | Some file => Static file
      | None =>
          match List.find (λ rule, bool_decide (is_Some (mounted rule.1 (req_path req))))
                  (proxy (p_config project)) with
          | Some rule => Proxied rule.2
          | None =>
              if isGet (req_method req)
              then SendFile (path_join (p_path project) "index.html")
              else Unhandled
          end
      end
  end.

(** A proxy rule takes a request path when its mount path matches it. *)
Definition matches (rule : string * string) (path : string) : Prop :=
  is_Some (mounted rule.1 path).

(** With the TypeScript step, the second static layer ([/dist]) has no file
    for the request either. *)
Definition distMiss (project : Project) (req : Request) : Prop :=
  typescript (p_config project) = true →
  ∀ rest, mounted "/dist" (req_path req) = Some rest →
          serveStatic (path_join (p_path project) "dist") (req_method req) rest = None.

End WithExpress.

End ProjectServer.

(** ** The permission check of the security sandbox *)

Module SecuritySandbox.
Import JsString.

(** A logged security event: type, path, operation, reason. *)
Record SecurityEvent := {
  se_type : string;
  se_path : string;
  se_operation : string;
  se_reason : string
}.

(** The fields of [SecuritySandbox] that [checkFilePermission] reads and
    writes.  The two sets are lists in insertion order. *)
Record Sandbox := {
  blockedPaths : list string;
  allowedPaths : list string;
  maxFileSize : N;
  securityEvents : list SecurityEvent
}.

Definition setAddString (x : string) (l : list string) : list string :=
  if decide (x ∈ l) then l else l ++ [x].

(** [setupSecurityRules] on a fresh sandbox; [nodeModules] is
    [path.join(path.dirname(process.cwd()), 'node_modules')]. *)
Definition setupSecurityRules (win32 : bool) (workspacePath cwd nodeModules : string)
    : Sandbox :=
  let common := [ "/etc"; "/usr/bin"; "/usr/sbin"; "/bin"; "/sbin";
                  "/var/log"; "/var/run"; "/root"; "/home" ] in
  let platform :=
    if win32 then [ "C:\Windows"; "C:\Program Files"; "C:\Program Files (x86)" ]
    else [ "/usr"; "/opt" ] in
  {| blockedPaths := foldl (λ acc x, setAddString x acc) [] (common ++ platform);
     allowedPaths := foldl (λ acc x, setAddString x acc) []
                       [ workspacePath; "/tmp"; cwd; nodeModules ];
     maxFileSize := (10 * 1024 * 1024)%N;
     securityEvents := [] |}.

(** [logSecurityEvent]: push, then keep the last 1000. *)
Definition logSecurityEvent (e : SecurityEvent) (sb : Sandbox) : Sandbox :=
  let events := securityEvents sb ++ [e] in
  {| blockedPaths := blockedPaths sb; allowedPaths := allowedPaths sb;
     maxFileSize := maxFileSize sb;
     securityEvents :=
       if decide (1000 < List.length events)
       then drop (List.length events - 1000) events
       else events |}.

Section WithFs.

(** [path.resolve] *)
Variable path_resolve : string → string.

(** [(await fs.stat(p)).size], [None] when [fs.stat] throws. *)
Variable statSize : string → option N.

Definition denied (absolutePath operation reason : string) (sb : Sandbox)
    : bool * Sandbox :=
  (false, logSecurityEvent {| se_type := "access_denied"; se_path := absolutePath;
                              se_operation := operation; se_reason := reason |} sb).

Definition checkFilePermission (filePath operation : string) (sb : Sandbox)
    : bool * Sandbox :=
  let absolutePath := path_resolve filePath in
  if existsb (λ blockedPath, startsWith absolutePath blockedPath) (blockedPaths sb)
  then denied absolutePath operation "blocked_path" sb
  else if negb (existsb (λ allowedPath, startsWith absolutePath allowedPath)
                  (allowedPaths sb))
  then denied absolutePath operation "not_in_allowed_paths" sb
  else if bool_decide (operation = "write") then
    match statSize absolutePath with
    | Some size =>
        if decide (maxFileSize sb < size)%N
        then denied absolutePath operation "file_too_large" sb
        else (true, sb)
    | None => (true, sb)
    end
  else (true, sb).

End WithFs.

End SecuritySandbox.

(** ** What the properties speak of *)

Module Observe.
Import JsString LivePreview.

(** The project a message is about ([None] for the catalogue snapshot). *)
Definition about (m : Message) : option string :=
  match m with
  | MProjectState id _ _ _ => Some id
  | MProjectsList _ => None
  | MProjectAdded id _ _ _ => Some id
  | MFileChange change => Some (ci_projectId change)
  | MRebuildComplete projectId _ _ => Some projectId
  | MRebuildError projectId _ _ => Some projectId
  | MWatcherError projectId _ _ => Some projectId
  | MPreviewStarted projectId _ _ => Some projectId
  | MPreviewStopped projectId _ => Some projectId
  end.

Definition isPreviewStopped (m : Message) : bool :=
  match m with MPreviewStopped _ _ => true | _ => false end.

(** What a socket may have received: a global socket only its snapshot, a
    project socket only messages about its project or [preview-stopped]. *)
Definition inboxOk (sock : Socket) : Prop :=
  match ws_project sock with
  | None => ∃ projects, ws_inbox sock = [MProjectsList projects]
  | Some b =>
      ∀ m, m ∈ ws_inbox sock → about m = Some b ∨ isPreviewStopped m = true
  end.

(** A socket sits only in the set of the project it was opened for. *)
Definition boundOk (conns : gmap string (list nat)) (ws : nat) (sock : Socket) : Prop :=
  ∀ pid cs, conns !! pid = Some cs → ws ∈ cs → ws_project sock = Some pid.

(** The invariant of [connections] and the sockets. *)
Definition ChannelsOk (conns : gmap string (list nat)) (socks : gmap nat Socket)
    (next : nat) : Prop :=
  (∀ pid cs ws, conns !! pid = Some cs → ws ∈ cs → ws < next) ∧
  map_Forall (λ ws sock, inboxOk sock ∧ boundOk conns ws sock) socks.

Definition ChannelsInv (s : State) : Prop :=
  ChannelsOk (connections s) (sockets s) (nextHandle s).

(** The triggers of the [rebuildProject] calls logged for a project id, in
    order. *)
Definition rebuildsOf (pid : string) (lines : list LogLine) : list string :=
  omap (λ l, match l with
             | LRebuilding p trigger =>
                 if decide (p_id p = pid) then Some trigger else None
             | _ => None
             end) lines.

(** The pending timers of a project id. *)
Definition timersOf (pid : string) (ts : list Timer) : list Timer :=
  filter (λ t, p_id (t_project t) = pid) ts.

(** Every pending timer is the one [rebuildTimeouts] holds for its project. *)
Definition TimersOk (s : State) : Prop :=
  ∀ t, t ∈ timers s → rebuildTimeouts s !! p_id (t_project t) = Some (t_id t).

(** The state between two events of a burst for [p]: one timer of [p] is
    pending, due a full window from now. *)
Definition Armed (p : Project) (s : State) : Prop :=
  TimersOk s ∧
  ∃ tm, timersOf (p_id p) (timers s) = [tm]
        ∧ t_deadline tm = now s + debounceTime.

(** A change seen by a watcher and not ignored. *)
Record FileEvent := { fe_path : string; fe_type : ChangeType }.

(** A burst for project [p]: a first event, then events that each come
    [gap] milliseconds after the one before. *)
Definition burst (path_relative : string → string → string) (p : Project)
    (e0 : FileEvent) (es : list (nat * FileEvent)) (s : State) : State :=
  foldl (λ acc ge, handleFileChange path_relative p (fe_path ge.2) (fe_type ge.2)
                     (advance ge.1 acc))
        (handleFileChange path_relative p (fe_path e0) (fe_type e0) s) es.

(** A burst as inputs of the event loop, the events coming from watcher [w]. *)
Definition burstInputs (w : nat) (e0 : FileEvent) (es : list (nat * FileEvent))
    : list Input :=
  IFsEvent w (fe_path e0) (fe_type e0)
  :: flat_map (λ ge, [IAdvance ge.1; IFsEvent w (fe_path ge.2) (fe_type ge.2)]) es.

(** The rebuilds of a project id that are suspended at the compile step. *)
Definition inFlight (pid : string) (s : State) : list Job :=
  filter (λ j, p_id (j_project j) = pid) (jobs s).

(** Server and watcher handles already given out are below the allocator. *)
Definition HandlesFresh (s : State) : Prop :=
  (∀ h, is_Some (httpServers s !! h) → h < nextHandle s) ∧
  (∀ w, is_Some (watchers s !! w) → w < nextHandle s).

End Observe.

(** ** Concrete projects and stand-ins for the libraries *)

Module Scenario.
Import JsString LivePreview Observe.

Fixpoint dropChars (n : nat) (s : string) : string :=
  match n, s with
  | 0, _ => s
  | S n', String _ rest => dropChars n' rest
  | S _, EmptyString => EmptyString
  end.

(** [path.relative] for a file below the root: the path after the root and
    its separator. *)
Definition relativeTo (root filePath : string) : string :=
  if startsWith filePath (root +:+ "/")
  then dropChars (S (String.length root)) filePath
  else filePath.

(** A plain project with one proxy rule. *)
Definition app : Project :=
  {| p_id := "app"; p_name := "App"; p_path := "/tmp/p";
     p_config := {| typescript := false;
                    proxy := [("/api", "http://localhost:8080")] |} |}.

(** A project with the TypeScript step. *)
Definition tsApp : Project :=
  {| p_id := "ts"; p_name := "Typed"; p_path := "/tmp/t";
     p_config := {| typescript := true; proxy := [] |} |}.

(** A project whose path lies under a blocked path. *)
Definition etcApp : Project :=
  {| p_id := "etc"; p_name := "Etc"; p_path := "/etc/nginx";
     p_config := {| typescript := false; proxy := [] |} |}.

(** A file system with two files, and the express layers over it. *)
Definition files : list string := [ "/tmp/p/index.html"; "/tmp/p/api/data.json" ].

Definition toyStatic (root : string) (m : ProjectServer.Method) (path : string)
    : option string :=
  if ProjectServer.isGet m && bool_decide (root +:+ path ∈ files)
  then Some (root +:+ path) else None.

Definition toyMounted (mount path : string) : option string :=
  if startsWith path mount then Some (dropChars (String.length mount) path) else None.

Definition toyJoin (a b : string) : string := a +:+ "/" +:+ b.

(** The sandbox after [setupSecurityRules] on Linux. *)
Definition sandbox : SecuritySandbox.Sandbox :=
  SecuritySandbox.setupSecurityRules false "/home/dev/Silhouette-V5-Workspace"
    "/srv/silhouette" "/srv/node_modules".

(** Paths that are absolute and normalized already resolve to themselves. *)
Definition resolved (filePath : string) : string := filePath.

Definition noStat (filePath : string) : option N := None.

(** Runs of the system from its initial state. *)
Definition go : list Input → State := run relativeTo initial.

Definition aTxt : FileEvent := {| fe_path := "/tmp/p/a.txt"; fe_type := modified |}.
Definition bTxt : FileEvent := {| fe_path := "/tmp/p/b.txt"; fe_type := added |}.

(** The plain project is set up. *)
Definition ready : State := go [ISetupProject app 4000].

(** Three changes within 20 ms, then a quiet debounce window. *)
Definition burstDone : State :=
  go [ISetupProject app 4000;
      IFsEvent 1 "/tmp/p/a.txt" modified; IAdvance 10;
      IFsEvent 1 "/tmp/p/a.txt" modified; IAdvance 10;
      IFsEvent 1 "/tmp/p/b.txt" added; IAdvance 300].

(** The typed project is set up and a viewer is connected to it. *)
Definition typedReady : State :=
  go [ISetupProject tsApp 4000; IWsConnect (Some "ts")].

(** A file change starts a rebuild; a rebuild by hand follows while the
    compiler of the first still runs. *)
Definition twoTriggers : State :=
  run relativeTo typedReady
    [IFsEvent 1 "/tmp/t/a.ts" modified; IAdvance 300; IRebuildProject tsApp "manual"].

(** A rebuild by hand whose compile step fails. *)
Definition compileFailed : State :=
  run relativeTo typedReady
    [IRebuildProject tsApp "manual"; ICompileDone 3 (Some "error TS2304")].

(** A rebuild by hand whose compile step is still running after 40 s. *)
Definition compileHangs : State :=
  run relativeTo typedReady [IRebuildProject tsApp "manual"; IAdvance (40 * 1000)].

(** The same project is set up twice. *)
Definition setupTwice : State := go [ISetupProject app 4000; ISetupProject app 4001].

(** A viewer is connected, a file changes, and the preview is stopped
    before the debounce window has passed. *)
Definition stoppedMidWindow : State :=
  go [ISetupProject app 4000; IWsConnect (Some "app");
      IFsEvent 1 "/tmp/p/a.txt" modified; IStopPreview "app"].

(** A viewer of one project, and [stopPreview] of another id. *)
Definition otherStopped : State :=
  go [ISetupProject app 4000; IWsConnect (Some "app"); IStopPreview "other"].

(** A viewer of the catalogue. *)
Definition catalogue : State := go [ISetupProject app 4000; IWsConnect None].

End Scenario.

(** * Further operations of the two classes *)

(** ** More of the security sandbox *)

Module SandboxOps.
Import JsString SecuritySandbox.

(** [Array.prototype.slice(start)] with an integer [start]: a negative start
    counts from the end, and both ends are clamped. *)
Definition sliceFrom {A} (start : Z) (l : list A) : list A :=
  let len := Z.of_nat (List.length l) in
  let k := if (start <? 0)%Z then Z.max (len + start) 0 else Z.min start len in
  drop (Z.to_nat k) l.

(** [getSecurityEvents(limit)]: [this.securityEvents.slice(-limit)]. *)
Definition getSecurityEvents (limit : Z) (sb : Sandbox) : list SecurityEvent :=
  sliceFrom (- limit) (securityEvents sb).

(** [addAllowedPath(pathToAdd)]: [this.allowedPaths.add(path.resolve(pathToAdd))]. *)
Definition addAllowedPath (path_resolve : string → string) (pathToAdd : string)
    (sb : Sandbox) : Sandbox :=
  {| blockedPaths := blockedPaths sb;
     allowedPaths := setAddString (path_resolve pathToAdd) (allowedPaths sb);
     maxFileSize := maxFileSize sb;
     securityEvents := securityEvents sb |}.

(** [args.join(' ')] *)
Fixpoint joinSpace (args : list string) : string :=
  match args with
  | [] => EmptyString
  | [a] => a
  | a :: rest => a +:+ " " +:+ joinSpace rest
  end.

(** [dangerousCommands] of [checkProcessPermission]. *)
Definition dangerousCommands : list string :=
  [ "rm -rf"; "format"; "del /f"; "sudo"; "su"; "chmod 777" ].

(** The template string [`${command} ${args.join(' ')}`]. *)
Definition commandString (command : string) (args : list string) : string :=
  command +:+ " " +:+ joinSpace args.

(** The value [checkProcessPermission(command, args)] resolves to.  (On a
    denial it also logs a [process_denied] event.) *)
Definition checkProcessPermission (command : string) (args : list string) : bool :=
  negb (existsb (λ dangerous, includes (commandString command args) dangerous)
          dangerousCommands).

End SandboxOps.


(** ** More invariants of the preview system *)

Module PreviewInvariants.
Import JsString LivePreview Observe.

(** The sets of sockets hold no socket twice. *)
Definition ConnsNoDup (s : State) : Prop :=
  ∀ pid cs, connections s !! pid = Some cs → NoDup cs.

(** Timer handles: the ones [rebuildTimeouts] holds were given out before,
    differ from project to project, and no pending timer is listed twice. *)
Definition TimersUniq (s : State) : Prop :=
  TimersOk s
  ∧ (∀ pid t, rebuildTimeouts s !! pid = Some t → t < nextHandle s)
  ∧ (∀ p q t, rebuildTimeouts s !! p = Some t → rebuildTimeouts s !! q = Some t → p = q)
  ∧ NoDup (t_id <$> timers s).

(** What an entry of [previewServers] looks like, and the server it names. *)
Definition EntryOk (s : State) (pid : string) (info : ServerInfo) : Prop :=
  p_id (si_project info) = pid
  ∧ si_url info = "/projects/" +:+ pid
  ∧ si_status info = "ready"
  ∧ si_port info = sb_port (si_server info)
  ∧ httpServers s !! sb_server (si_server info)
    = Some {| hs_project := si_project info; hs_port := si_port info;
              hs_listening := true |}.

Definition RegistryOk (s : State) : Prop :=
  (∀ pid info, previewServers s !! pid = Some info → EntryOk s pid info)
  ∧ (∀ h srv, httpServers s !! h = Some srv → hs_listening srv = true).

(** Socket handles already given out are below the allocator. *)
Definition SocketsFresh (s : State) : Prop :=
  ∀ ws, is_Some (sockets s !! ws) → ws < nextHandle s.

(** A socket that exists and sits in no set of [connections]. *)
Definition Absent (ws : nat) (conns : gmap string (list nat)) : Prop :=
  ∀ pid cs, conns !! pid = Some cs → ws ∉ cs.

Definition Untracked (s : State) (ws : nat) : Prop :=
  ws < nextHandle s ∧ Absent ws (connections s).

(** What a socket has received so far. *)
Definition inboxOf (s : State) (ws : nat) : option (list Message) :=
  ws_inbox <$> sockets s !! ws.

(** The entry and the server that [setupProject] writes. *)
Definition entryOf (p : Project) (port : nat) (s : State) : ServerInfo :=
  {| si_project := p; si_url := projectUrlOf p;
     si_server := {| sb_server := nextHandle s; sb_port := port |};
     si_port := port; si_status := "ready"; si_startTime := now s |}.

Definition serverOf (p : Project) (port : nat) : HttpServer :=
  {| hs_project := p; hs_port := port; hs_listening := true |}.

(** The message of the [TypeError] that [stopPreview] and [dispose] meet. *)
Definition closeError : string := "serverInfo.server.close is not a function".

End PreviewInvariants.

(** ** More concrete runs *)

Module Sessions.
Import JsString LivePreview SecuritySandbox SandboxOps Scenario.

(** A viewer connects to the project after it was set up: socket 2. *)
Definition viewing : State :=
  go [ISetupProject app 4000; IWsConnect (Some "app")].

Definition viewer : Socket :=
  {| ws_readyState := OPEN; ws_project := Some "app";
     ws_inbox := [MProjectState "app" "/projects/app" "ready" 4000] |}.

(** A change is pending for [app] (timer 3) while [tsApp] is set up too. *)
Definition twoProjects : State :=
  go [ISetupProject app 4000; ISetupProject tsApp 4001;
      IFsEvent 1 "/tmp/p/a.txt" modified].

(** The preview of [app] was asked to stop: its watcher 1 is closed. *)
Definition stopped : State := go [ISetupProject app 4000; IStopPreview "app"].

End Sessions.

(** * Properties *)

(** ** String primitives *)

Module JsStringFacts.
Import JsString.

Lemma append_cons (c : ascii) (a b : string) :
  String c a +:+ b = String c (a +:+ b).
Proof. reflexivity. Qed.

Lemma append_nil (b : string) : EmptyString +:+ b = b.
Proof. reflexivity. Qed.

Lemma startsWith_app (s p : string) :
  startsWith s p = true ↔ ∃ post, s = p +:+ post.
Proof.
  revert s. induction p as [|c p IH]; intros s; simpl.
  - split; [intros _; by exists s | done].
  - destruct s as [|d s]; simpl.
    + split; [done | intros [post H]; discriminate].
    + setoid_rewrite append_cons.
      destruct (Ascii.eqb_spec c d) as [->|Hne]; simpl.
      * rewrite IH. split; intros [post H]; exists post; congruence.
      * split; [done | intros [post H]; congruence].
Qed.

(** [includes] is the substring relation. *)
Lemma includes_spec (s pat : string) :
  includes s pat = true ↔ ∃ pre post, s = pre +:+ pat +:+ post.
Proof.
  induction s as [|c s IH]; simpl.
  - rewrite orb_false_r, startsWith_app. split.
    + intros [post H]. by exists EmptyString, post.
    + intros [pre [post H]]. destruct pre; [by exists post | discriminate].
  - rewrite orb_true_iff, startsWith_app, IH. split.
    + intros [[post H] | [pre [post H]]].
      * by exists EmptyString, post.
      * exists (String c pre), post. rewrite append_cons. by rewrite H.
    + intros [pre [post H]]. destruct pre as [|d pre].
      * left. by exists post.
      * right. exists pre, post. rewrite append_cons in H. congruence.
Qed.

Lemma has_char_app (c : ascii) (a b : string) :
  has_char c (a +:+ b) = has_char c a || has_char c b.
Proof.
  induction a as [|d a IH]; [done |].
  rewrite append_cons. simpl. by rewrite IH, orb_assoc.
Qed.

(** A substring's characters occur in the whole string. *)
Lemma includes_has_char (c : ascii) (s pat : string) :
  includes s pat = true → has_char c pat = true → has_char c s = true.
Proof.
  rewrite includes_spec. intros (pre & post & ->) H.
  rewrite !has_char_app, H. by rewrite orb_true_r.
Qed.

Lemma replace_backslashes_star (s : string) :
  has_char "*"%char (replace_backslashes s) = has_char "*"%char s.
Proof.
  induction s as [|c s IH]; simpl; [done |]. rewrite IH. f_equal.
  unfold backslash, slash.
  destruct (Ascii.eqb_spec c (ascii_of_nat 92)) as [->|_]; [vm_compute|]; done.
Qed.

End JsStringFacts.

(** ** The watcher's exclusion test *)

Module IgnoreFacts.
Import JsString JsStringFacts LivePreview.

Lemma exclude_has_star (pattern : string) :
  pattern ∈ exclude → has_char "*"%char pattern = true.
Proof.
  unfold exclude. rewrite !elem_of_cons, elem_of_nil.
  intros H. repeat destruct H as [-> | H]; done.
Qed.

(** No glob pattern of [watchPatterns.exclude] occurs in a path that has no
    [*] in it. *)
Lemma exclude_never_matches (filePath : string) :
  has_char "*"%char filePath = false →
  existsb (λ pattern, includes (replace_backslashes filePath) pattern) exclude = false.
Proof.
  intros Hstar. apply not_true_is_false. intros H.
  apply existsb_exists in H as (pattern & Hin & Hinc).
  apply list_elem_of_In, exclude_has_star in Hin.
  pose proof (includes_has_char _ _ _ Hinc Hin) as Hs.
  rewrite replace_backslashes_star in Hs. congruence.
Qed.

Lemma shouldIgnoreFile_marker (filePath m : string) :
  m ∈ markers → includes (replace_backslashes filePath) m = true →
  shouldIgnoreFile filePath = true.
Proof.
  unfold markers, shouldIgnoreFile. rewrite !elem_of_cons, elem_of_nil.
  intros H Hinc. cbv zeta.
  destruct (existsb _ exclude); [done |].
  repeat destruct H as [-> | H]; try done;
    rewrite ?Hinc, ?orb_true_r; simpl; repeat case_match; done.
Qed.

Lemma shouldIgnoreFile_clean (filePath : string) :
  has_char "*"%char filePath = false →
  (∀ m, m ∈ markers → includes (replace_backslashes filePath) m = false) →
  shouldIgnoreFile filePath = false.
Proof.
  intros Hstar Hm. unfold shouldIgnoreFile. cbv zeta.
  rewrite (exclude_never_matches _ Hstar).
  rewrite !Hm; [done | unfold markers; set_solver ..].
Qed.

End IgnoreFacts.

(** ** The preview system *)

Module PreviewFacts.
Import JsString JsStringFacts LivePreview Observe IgnoreFacts.

#[local] Arguments startPreview : simpl never.
#[local] Arguments setupProject : simpl never.
#[local] Arguments rebuildProject : simpl never.
#[local] Arguments finishRebuild : simpl never.
#[local] Arguments failRebuild : simpl never.
#[local] Arguments compileDone : simpl never.
#[local] Arguments LivePreview.handleFileChange : simpl never.
#[local] Arguments debouncedRebuild : simpl never.
#[local] Arguments handleWatcherError : simpl never.
#[local] Arguments handleWebSocketConnection : simpl never.
#[local] Arguments socketClosed : simpl never.
#[local] Arguments stopPreview : simpl never.
#[local] Arguments dispose : simpl never.
#[local] Arguments broadcastGlobal : simpl never.
#[local] Arguments broadcastToProject : simpl never.
#[local] Arguments LivePreview.fsEvent : simpl never.
#[local] Arguments watcherError : simpl never.
#[local] Arguments advance : simpl never.
#[local] Arguments fire : simpl never.

Ltac simp_ops :=
  unfold startPreview, setupProject, startProjectServer, setupProjectWatcher,
    registerProjectRoute, compileDone, rebuildProject, finishRebuild,
    failRebuild, updateProjectServer, LivePreview.handleFileChange,
    debouncedRebuild, clearTimeout, watcherError, handleWatcherError,
    handleWebSocketConnection, socketClosed, stopPreview,
    broadcastGlobal, broadcastToProject, emit, log, fresh in *.

(** Unfold an operation down to field updates and decide its branches. *)
Ltac crush_ops := simp_ops; simpl; repeat case_match; simplify_eq/=.

(** *** Sending and closing over a set of sockets *)

Lemma sendAll_ind (P : nat → Socket → Prop) cs m socks :
  (∀ ws sock, ws ∈ cs → P ws sock → P ws (deliver m sock)) →
  map_Forall P socks → map_Forall P (sendAll cs m socks).
Proof.
  unfold sendAll. revert socks. induction cs as [|c cs IH]; intros socks Hd HP; simpl; [done|].
  apply IH.
  - intros ws sock Hin. apply Hd. by right.
  - intros ws sock. rewrite lookup_alter. case_decide as Heq.
    + subst. destruct (socks !! ws) as [sock0|] eqn:E; simpl; [|done].
      intros [= <-]. apply Hd; [by left|]. by apply HP.
    + apply HP.
Qed.

Lemma closeAll_ind (P : nat → Socket → Prop) cs socks :
  (∀ ws sock, P ws sock → P ws (closeSocket sock)) →
  map_Forall P socks → map_Forall P (closeAll cs socks).
Proof.
  unfold closeAll. revert socks. induction cs as [|c cs IH]; intros socks Hd HP; simpl; [done|].
  apply IH; [done|].
  intros ws sock. rewrite lookup_alter. case_decide as Heq.
  - subst. destruct (socks !! ws) as [sock0|] eqn:E; simpl; [|done].
    intros [= <-]. apply Hd. by apply HP.
  - apply HP.
Qed.

Lemma inboxOk_deliver m sock pid :
  inboxOk sock → ws_project sock = Some pid →
  about m = Some pid ∨ isPreviewStopped m = true →
  inboxOk (deliver m sock).
Proof.
  unfold inboxOk, deliver. intros Hok Hp Hm.
  destruct (ws_readyState sock); simpl; rewrite Hp in *; try done.
  intros m'. rewrite elem_of_app, list_elem_of_singleton. intros [?| ->]; auto.
Qed.

Lemma ChannelsOk_sendAll c k n pid cs m :
  ChannelsOk c k n → c !! pid = Some cs →
  about m = Some pid ∨ isPreviewStopped m = true →
  ChannelsOk c (sendAll cs m k) n.
Proof.
  intros [H1 H2] Hc Hm. split; [done|].
  apply sendAll_ind; [|done].
  intros ws sock Hin [Hok Hb]. split.
  - eapply inboxOk_deliver; eauto.
  - unfold boundOk, deliver in *. by destruct (ws_readyState sock).
Qed.

Lemma ChannelsOk_sendGlobal c k n L projectId t :
  ChannelsOk c k n → (∀ cs, cs ∈ L → ∃ pid, c !! pid = Some cs) →
  ChannelsOk c (foldl (λ acc cs, sendAll cs (MPreviewStopped projectId t) acc) k L) n.
Proof.
  revert k. induction L as [|cs L IH]; intros k HI HL; simpl; [done|].
  apply IH.
  - destruct (HL cs) as [pid Hpid]; [by left|].
    eapply ChannelsOk_sendAll; eauto.
  - intros cs' Hin. apply HL. by right.
Qed.

Lemma allConnections_lookup s cs :
  cs ∈ allConnections s → ∃ pid, connections s !! pid = Some cs.
Proof.
  unfold allConnections. rewrite list_elem_of_fmap.
  intros [[pid cs'] [-> Hin]]. exists pid. by apply elem_of_map_to_list.
Qed.

Lemma ChannelsOk_closeAll c k n cs : ChannelsOk c k n → ChannelsOk c (closeAll cs k) n.
Proof.
  intros [H1 H2]. split; [done|]. apply closeAll_ind; [|done].
  intros ws sock [Hok Hb]. unfold inboxOk, boundOk, closeSocket in *.
  by destruct (ws_readyState sock).
Qed.

Lemma ChannelsOk_closeGlobal c k n L :
  ChannelsOk c k n → ChannelsOk c (foldl (λ acc cs, closeAll cs acc) k L) n.
Proof.
  revert k. induction L as [|cs L IH]; intros k HI; simpl; [done|].
  by apply IH, ChannelsOk_closeAll.
Qed.

Lemma ChannelsOk_next c k n n' : ChannelsOk c k n → n ≤ n' → ChannelsOk c k n'.
Proof. intros [H1 H2] Hle. split; [|done]. intros pid cs ws Hc Hin. specialize (H1 _ _ _ Hc Hin). lia. Qed.

Lemma ChannelsOk_weaken c c' k n :
  ChannelsOk c k n →
  (∀ pid cs' ws, c' !! pid = Some cs' → ws ∈ cs' → ∃ cs, c !! pid = Some cs ∧ ws ∈ cs) →
  ChannelsOk c' k n.
Proof.
  intros [H1 H2] Hsub. split.
  - intros pid cs' ws Hc Hin. destruct (Hsub _ _ _ Hc Hin) as (cs & Hcs & Hws). eauto.
  - intros ws sock Hs. destruct (H2 _ _ Hs) as [Hok Hb]. split; [done|].
    intros pid cs' Hc Hin. destruct (Hsub _ _ _ Hc Hin) as (cs & Hcs & Hws). eauto.
Qed.

Lemma ChannelsOk_insert_nil c k n pid : ChannelsOk c k n → ChannelsOk (<[pid := []]> c) k n.
Proof.
  intros HI. eapply ChannelsOk_weaken; [done|].
  intros pid' cs' ws. rewrite lookup_insert. case_decide.
  - intros [= <-]. by intros ?%elem_of_nil.
  - eauto.
Qed.

Lemma ChannelsOk_delete c k n pid : ChannelsOk c k n → ChannelsOk (delete pid c) k n.
Proof.
  intros HI. eapply ChannelsOk_weaken; [done|].
  intros pid' cs' ws. rewrite lookup_delete. case_decide; [done | eauto].
Qed.

Lemma ChannelsOk_setDelete c k n pid ws : ChannelsOk c k n → ChannelsOk (alter (setDelete ws) pid c) k n.
Proof.
  intros HI. eapply ChannelsOk_weaken; [done|].
  intros pid' cs' ws'. rewrite lookup_alter. case_decide; [|eauto]. subst.
  destruct (c !! pid') as [cs|]; simpl; [|done]. intros [= <-].
  unfold setDelete. rewrite list_elem_of_filter. intros [_ ?]. eauto.
Qed.

Lemma ChannelsOk_empty k n : map_Forall (λ _ sock, inboxOk sock) k → ChannelsOk ∅ k n.
Proof.
  intros H. split; [intros ???; by rewrite lookup_empty|].
  intros ws sock Hs. split; [by eapply H|]. intros ??; by rewrite lookup_empty.
Qed.

Lemma ChannelsOk_alter_sock c k n ws f :
  ChannelsOk c k n →
  (∀ sock, k !! ws = Some sock → ws_project (f sock) = ws_project sock ∧ (inboxOk sock → inboxOk (f sock))) →
  ChannelsOk c (alter f ws k) n.
Proof.
  intros [H1 H2] Hf. split; [done|].
  intros ws' sock'. rewrite lookup_alter. case_decide; [|apply H2]. subst.
  destruct (k !! ws') as [sock|] eqn:E; simpl; [|done]. intros [= <-].
  destruct (H2 _ _ E) as [Hok Hb]. destruct (Hf _ eq_refl) as [Hp Hi]. split; [auto|].
  unfold boundOk in *. rewrite Hp. done.
Qed.

Lemma ChannelsOk_connect c k n pid :
  ChannelsOk c k n → is_Some (c !! pid) →
  ChannelsOk (alter (setAdd n) pid c)
       (<[n := {| ws_readyState := OPEN; ws_project := Some pid; ws_inbox := [] |}]> k) (S n).
Proof.
  intros [H1 H2] [cs0 Hcs0]. split.
  - intros pid' cs ws. rewrite lookup_alter. case_decide.
    + subst. rewrite Hcs0. simpl. intros [= <-]. unfold setAdd.
      case_decide; [intros Hin; specialize (H1 _ _ _ Hcs0 Hin); lia|].
      rewrite elem_of_app, list_elem_of_singleton. intros [Hin| ->]; [|lia].
      specialize (H1 _ _ _ Hcs0 Hin); lia.
    + intros Hc Hin. specialize (H1 _ _ _ Hc Hin). lia.
  - intros ws sock. rewrite lookup_insert. case_decide.
    + subst. intros [= <-]. split.
      * unfold inboxOk. simpl. by intros m ?%elem_of_nil.
      * intros pid' cs. simpl. rewrite lookup_alter. case_decide; [by subst|].
        intros Hc Hin. specialize (H1 _ _ _ Hc Hin). lia.
    + intros Hs. destruct (H2 _ _ Hs) as [Hok Hb]. split; [done|].
      intros pid' cs. rewrite lookup_alter. case_decide; [|apply Hb]. subst.
      rewrite Hcs0. simpl. intros [= <-]. unfold setAdd.
      case_decide; [by apply Hb|].
      rewrite elem_of_app, list_elem_of_singleton. intros [Hin| ->]; [by eapply Hb|done].
Qed.

Lemma ChannelsOk_connect_global c k n l :
  ChannelsOk c k n →
  ChannelsOk c (<[n := {| ws_readyState := OPEN; ws_project := None; ws_inbox := [MProjectsList l] |}]> k) (S n).
Proof.
  intros [H1 H2]. split.
  - intros pid cs ws Hc Hin. specialize (H1 _ _ _ Hc Hin). lia.
  - intros ws sock. rewrite lookup_insert. case_decide; [|apply H2].
    subst. intros [= <-]. split; [unfold inboxOk; simpl; eauto|].
    intros pid cs Hc Hin. specialize (H1 _ _ _ Hc Hin). lia.
Qed.

Section WithPath.

Variable path_relative : string → string → string.

Local Abbreviation handleFileChange := (LivePreview.handleFileChange path_relative).
Local Abbreviation changeInfoOf := (LivePreview.changeInfoOf path_relative).
Local Abbreviation fsEvent := (LivePreview.fsEvent path_relative).
Local Abbreviation step := (LivePreview.step path_relative).
Local Abbreviation run := (LivePreview.run path_relative).

Lemma run_app (s : State) (xs ys : list Input) :
  run s (xs ++ ys) = run (run s xs) ys.
Proof. unfold LivePreview.run. apply foldl_app. Qed.

Lemma run_snoc (s : State) (xs : list Input) (i : Input) :
  run s (xs ++ [i]) = step (run s xs) i.
Proof. by rewrite run_app. Qed.

(** An induction principle over the reachable states. *)
Lemma reachable_ind (P : State → Prop) :
  P initial → (∀ s i, P s → P (step s i)) →
  ∀ s, reachable path_relative s → P s.
Proof.
  intros H0 Hstep s [inputs ->].
  induction inputs as [|i inputs IH] using rev_ind; [done |].
  rewrite run_snoc. by apply Hstep.
Qed.

(** *** The rebuild queue *)

Lemma rebuildQueue_rebuildProject p trigger s :
  rebuildQueue (rebuildProject p trigger s) = rebuildQueue s.
Proof. by crush_ops. Qed.

Lemma rebuildQueue_fires l s : rebuildQueue (foldl fire s l) = rebuildQueue s.
Proof.
  revert s. induction l as [|t l IH]; intros s; simpl; [done |].
  rewrite IH. unfold fire. by rewrite rebuildQueue_rebuildProject.
Qed.

Lemma rebuildQueue_advance ms s : rebuildQueue (advance ms s) = rebuildQueue s.
Proof. unfold advance. cbv zeta. simpl. by rewrite rebuildQueue_fires. Qed.

Lemma rebuildQueue_handleFileChange p filePath ty s :
  rebuildQueue (handleFileChange p filePath ty s)
  = rebuildQueue s ++ [changeInfoOf p filePath ty s].
Proof. by crush_ops. Qed.

Lemma rebuildQueue_step s i :
  i ≠ IDispose → rebuildQueue s `prefix_of` rebuildQueue (step s i).
Proof.
  intros Hi. destruct i; cbn [LivePreview.step]; try done;
    rewrite ?rebuildQueue_rebuildProject, ?rebuildQueue_advance; try reflexivity.
  all: try (unfold LivePreview.fsEvent; repeat case_match; try reflexivity;
            rewrite rebuildQueue_handleFileChange; by apply prefix_app_r).
  all: crush_ops; reflexivity.
Qed.

Lemma rebuildQueue_run s inputs :
  IDispose ∉ inputs → rebuildQueue s `prefix_of` rebuildQueue (run s inputs).
Proof.
  induction inputs as [|i inputs IH] using rev_ind; intros Hno; [done |].
  rewrite run_snoc. etrans; [apply IH | apply rebuildQueue_step]; set_solver.
Qed.

Lemma rebuildQueue_dispose s :
  (dispose s).2 = Returned → rebuildQueue (dispose s).1 = [].
Proof. unfold dispose. cbv zeta. by case_decide. Qed.


(** *** Ignored paths *)

(** C9. The exclusion test is a substring test on the normalized path.  On
    an open watcher, a path that contains one of [node_modules], [dist],
    [build], [.git], [.tmp], [.swp] anywhere changes nothing: no record, no
    timer, no message.  A path without [*] is matched by none of the glob
    patterns of [watchPatterns.exclude], so if it contains none of the six
    substrings its event is handled, whatever its name. *)
Theorem ignored_by_substring (s : State) (w : nat) (wt : Watcher)
    (filePath : string) (ty : ChangeType) :
  watchers s !! w = Some wt → w_open wt = true →
  (∀ m, m ∈ markers → includes (replace_backslashes filePath) m = true →
     shouldIgnoreFile filePath = true ∧ step s (IFsEvent w filePath ty) = s)
  ∧ (has_char "*"%char filePath = false →
     existsb (λ pattern, includes (replace_backslashes filePath) pattern) exclude
     = false)
  ∧ (has_char "*"%char filePath = false →
     (∀ m, m ∈ markers → includes (replace_backslashes filePath) m = false) →
     shouldIgnoreFile filePath = false
     ∧ step s (IFsEvent w filePath ty)
       = handleFileChange (w_project wt) filePath ty s).
Proof.
  intros Hw Hopen. cbn [LivePreview.step]. unfold LivePreview.fsEvent.
  rewrite Hw, Hopen. repeat split.
  - by eapply shouldIgnoreFile_marker.
  - by erewrite shouldIgnoreFile_marker.
  - apply exclude_never_matches.
  - by apply shouldIgnoreFile_clean.
  - by rewrite shouldIgnoreFile_clean.
Qed.

(** *** Sockets and connection sets *)

Lemma ChannelsInv_broadcastToProject pid m s :
  ChannelsInv s → about m = Some pid ∨ isPreviewStopped m = true →
  ChannelsInv (broadcastToProject pid m s).
Proof.
  destruct s. unfold broadcastToProject, ChannelsInv. simpl. intros HI Hm.
  case_match; simpl; [|done]. by eapply ChannelsOk_sendAll.
Qed.

Lemma ChannelsInv_broadcastGlobal pid t s :
  ChannelsInv s → ChannelsInv (broadcastGlobal (MPreviewStopped pid t) s).
Proof.
  intros HI. unfold broadcastGlobal, ChannelsInv. simpl.
  apply ChannelsOk_sendGlobal; [done|]. apply allConnections_lookup.
Qed.

Lemma ChannelsInv_updateProjectServer p s : ChannelsInv s → ChannelsInv (updateProjectServer p s).
Proof. destruct s. unfold updateProjectServer, ChannelsInv. simpl. by case_match. Qed.

Lemma ChannelsInv_emit e s : ChannelsInv s → ChannelsInv (emit e s).
Proof. by destruct s. Qed.

Lemma ChannelsInv_log l s : ChannelsInv s → ChannelsInv (log l s).
Proof. by destruct s. Qed.

Lemma ChannelsInv_finishRebuild p trigger s : ChannelsInv s → ChannelsInv (finishRebuild p trigger s).
Proof.
  intros HI. unfold finishRebuild. cbv zeta.
  apply ChannelsInv_log, ChannelsInv_emit, ChannelsInv_broadcastToProject; [by apply ChannelsInv_updateProjectServer | by left].
Qed.

Lemma ChannelsInv_failRebuild p error s : ChannelsInv s → ChannelsInv (failRebuild p error s).
Proof.
  intros HI. unfold failRebuild. cbv zeta.
  apply ChannelsInv_emit, ChannelsInv_broadcastToProject; [by apply ChannelsInv_log | by left].
Qed.

Lemma ChannelsInv_rebuildProject p trigger s : ChannelsInv s → ChannelsInv (rebuildProject p trigger s).
Proof.
  intros HI. unfold rebuildProject. cbv zeta.
  case_match; [case_match|].
  - destruct s. unfold ChannelsInv in *. simpl in *. eapply ChannelsOk_next; [done|lia].
  - by apply ChannelsInv_finishRebuild, ChannelsInv_log.
  - by apply ChannelsInv_failRebuild, ChannelsInv_log.
Qed.

Lemma ChannelsInv_upd_now f s : ChannelsInv s → ChannelsInv (upd_now f s).
Proof. by destruct s. Qed.

Lemma ChannelsInv_upd_timers f s : ChannelsInv s → ChannelsInv (upd_timers f s).
Proof. by destruct s. Qed.

Lemma ChannelsInv_fires l s : ChannelsInv s → ChannelsInv (foldl fire s l).
Proof.
  revert s. induction l as [|t l IH]; intros s HI; simpl; [done|].
  apply IH. unfold fire. by apply ChannelsInv_rebuildProject, ChannelsInv_upd_now.
Qed.

Lemma ChannelsInv_advance ms s : ChannelsInv s → ChannelsInv (advance ms s).
Proof.
  intros HI. unfold advance. cbv zeta. by apply ChannelsInv_upd_now, ChannelsInv_fires, ChannelsInv_upd_timers.
Qed.

Lemma ChannelsInv_upd_jobs f s : ChannelsInv s → ChannelsInv (upd_jobs f s).
Proof. by destruct s. Qed.

Lemma ChannelsInv_compileDone j result s : ChannelsInv s → ChannelsInv (compileDone j result s).
Proof.
  intros HI. unfold compileDone. case_match; [|done]. cbv zeta.
  by apply ChannelsInv_finishRebuild, ChannelsInv_log, ChannelsInv_upd_jobs.
Qed.

Lemma ChannelsInv_debouncedRebuild p c s : ChannelsInv s → ChannelsInv (debouncedRebuild p c s).
Proof.
  destruct s. unfold debouncedRebuild, clearTimeout, fresh, ChannelsInv. simpl.
  intros HI. case_match; simpl; (eapply ChannelsOk_next; [done|lia]).
Qed.

Lemma ChannelsInv_upd_rebuildQueue f s : ChannelsInv s → ChannelsInv (upd_rebuildQueue f s).
Proof. by destruct s. Qed.

Lemma ChannelsInv_handleFileChange p filePath ty s :
  ChannelsInv s → ChannelsInv (handleFileChange p filePath ty s).
Proof.
  intros HI. unfold LivePreview.handleFileChange. cbv zeta.
  apply ChannelsInv_emit, ChannelsInv_broadcastToProject; [|by left].
  by apply ChannelsInv_debouncedRebuild, ChannelsInv_upd_rebuildQueue, ChannelsInv_log.
Qed.

Lemma ChannelsInv_handleWatcherError p error s : ChannelsInv s → ChannelsInv (handleWatcherError p error s).
Proof.
  intros HI. unfold handleWatcherError. cbv zeta.
  apply ChannelsInv_broadcastToProject; [by apply ChannelsInv_log | by left].
Qed.

Lemma ChannelsInv_setupProject p port s : ChannelsInv s → ChannelsInv (setupProject p port s).
Proof.
  destruct s. unfold setupProject, startProjectServer, setupProjectWatcher,
    registerProjectRoute, fresh, emit, broadcastToProject, ChannelsInv. simpl.
  rewrite lookup_insert_eq. simpl. intros HI.
  apply ChannelsOk_insert_nil. eapply ChannelsOk_next; [exact HI | lia].
Qed.

Lemma ChannelsInv_startPreview p port s : ChannelsInv s → ChannelsInv (startPreview p port s).
Proof.
  intros HI. unfold startPreview. cbv zeta.
  apply ChannelsInv_emit, ChannelsInv_broadcastToProject; [by apply ChannelsInv_setupProject | by left].
Qed.

Lemma ChannelsInv_stopPreview pid s : ChannelsInv s → ChannelsInv (stopPreview pid s).1.
Proof.
  intros HI. unfold stopPreview. cbv zeta.
  set (s1 := match projectWatchers s !! pid with Some _ => _ | None => _ end).
  assert (ChannelsInv s1) as H1 by (subst s1; destruct s; by case_match).
  clearbody s1. clear HI s.
  set (s2 := match connections s1 !! pid with Some _ => _ | None => _ end).
  assert (ChannelsInv s2) as H2.
  { subst s2. destruct s1. unfold ChannelsInv in *. simpl in *. case_match; [|done]. simpl.
    by apply ChannelsOk_delete, ChannelsOk_closeAll. }
  clearbody s2. clear H1 s1. case_match; cbn [fst]; [by apply ChannelsInv_log|].
  apply ChannelsInv_log, ChannelsInv_emit, ChannelsInv_broadcastGlobal. by destruct s2.
Qed.

Lemma ChannelsInv_dispose s : ChannelsInv s → ChannelsInv (dispose s).1.
Proof.
  intros HI.
  assert (ChannelsOk (connections s) (foldl (λ acc conns, closeAll conns acc) (sockets s) (allConnections s)) (nextHandle s)) as H.
  { by apply ChannelsOk_closeGlobal. }
  destruct s. unfold dispose, ChannelsInv in *. simpl in *.
  case_decide; simpl; [|exact H].
  apply ChannelsOk_empty. intros ws sock Hs. by destruct (proj2 H _ _ Hs).
Qed.

Lemma ChannelsOk_deliver_state c k n ws pid url status port :
  ChannelsOk c k n →
  (∀ sock, k !! ws = Some sock → ws_project sock = Some pid) →
  ChannelsOk c (alter (deliver (MProjectState pid url status port)) ws k) n.
Proof.
  intros HI Hp. apply ChannelsOk_alter_sock; [done|]. intros sock Hs. split.
  - unfold deliver. by destruct (ws_readyState sock).
  - intros Hok. eapply inboxOk_deliver; eauto.
Qed.

Lemma ChannelsOk_closed c k n ws : ChannelsOk c k n → ChannelsOk c (alter closedSocket ws k) n.
Proof. intros HI. apply ChannelsOk_alter_sock; [done|]. by intros sock Hs. Qed.

Lemma ChannelsInv_connect param s : ChannelsInv s → ChannelsInv (handleWebSocketConnection param s).
Proof.
  destruct s. unfold handleWebSocketConnection, fresh, ChannelsInv. simpl. intros HI.
  destruct param as [[|c rest]|]; simpl; try by apply ChannelsOk_connect_global.
  set (pid := String c rest).
  assert (∀ c' k', ChannelsOk c' k' (S nextHandle0) →
            (∀ sock, k' !! nextHandle0 = Some sock → ws_project sock = Some pid) →
            ∀ o : option ServerInfo,
            ChannelsOk c' (match o with
                     | Some projectServer =>
                         alter (deliver (MProjectState pid (si_url projectServer)
                                  (si_status projectServer) (si_port projectServer)))
                           nextHandle0 k'
                     | None => k' end) (S nextHandle0)) as Hfin.
  { intros c' k' HI' Hp [si|]; [by apply ChannelsOk_deliver_state | done]. }
  destruct (connections0 !! pid) as [cs|] eqn:E; simpl;
    destruct (previewServers0 !! pid) as [si|] eqn:E2; simpl.
  - apply (Hfin _ _ (ChannelsOk_connect _ _ _ pid HI (mk_is_Some _ _ E))
             ltac:(intros sock; rewrite lookup_insert_eq; by intros [= <-]) (Some si)).
  - by apply ChannelsOk_connect.
  - apply (Hfin _ _ (ChannelsOk_connect _ _ _ pid (ChannelsOk_insert_nil _ _ _ pid HI)
                       ltac:(rewrite lookup_insert_eq; eauto))
             ltac:(intros sock; rewrite lookup_insert_eq; by intros [= <-]) (Some si)).
  - apply ChannelsOk_connect; [by apply ChannelsOk_insert_nil | rewrite lookup_insert_eq; eauto].
Qed.

Lemma ChannelsInv_socketClosed ws s : ChannelsInv s → ChannelsInv (socketClosed ws s).
Proof.
  destruct s. unfold socketClosed, ChannelsInv. simpl. intros HI.
  destruct (sockets0 !! ws) as [sock|]; simpl; [|done].
  destruct (ws_project sock) as [pid|]; simpl; [|by apply ChannelsOk_closed].
  destruct (connections0 !! pid); simpl; [|by apply ChannelsOk_closed].
  by apply ChannelsOk_setDelete, ChannelsOk_closed.
Qed.

Lemma ChannelsInv_step s i : ChannelsInv s → ChannelsInv (step s i).
Proof.
  intros HI. destruct i; cbn [LivePreview.step].
  - by apply ChannelsInv_setupProject.
  - by apply ChannelsInv_startPreview.
  - by apply ChannelsInv_stopPreview.
  - by apply ChannelsInv_rebuildProject.
  - unfold LivePreview.fsEvent. repeat case_match; try done. by apply ChannelsInv_handleFileChange.
  - unfold watcherError. repeat case_match; try done. by apply ChannelsInv_handleWatcherError.
  - by apply ChannelsInv_compileDone.
  - by apply ChannelsInv_connect.
  - by apply ChannelsInv_socketClosed.
  - by apply ChannelsInv_advance.
  - by apply ChannelsInv_dispose.
Qed.

Lemma ChannelsInv_initial : ChannelsInv initial.
Proof. apply ChannelsOk_empty, map_Forall_empty. Qed.

Lemma ChannelsInv_reachable s : reachable path_relative s → ChannelsInv s.
Proof. apply reachable_ind; [apply ChannelsInv_initial | intros; by apply ChannelsInv_step]. Qed.

(** C8. In every reachable state, a socket opened without a project id has
    received exactly one message, the [projects-list] snapshot of its
    connection (so never a [file-change] or [rebuild-*] message), and a
    socket opened for project [b] has received only messages about [b],
    except [preview-stopped] messages, which [stopPreview] sends to the
    sockets of every project. *)
Theorem channel_isolation (s : State) (ws : nat) (sock : Socket) :
  reachable path_relative s → sockets s !! ws = Some sock →
  match ws_project sock with
  | None => ∃ projects, ws_inbox sock = [MProjectsList projects]
  | Some b =>
      ∀ m, m ∈ ws_inbox sock → about m = Some b ∨ isPreviewStopped m = true
  end.
Proof.
  intros Hr Hs. destruct (ChannelsInv_reachable _ Hr) as [_ H].
  by destruct (H _ _ Hs).
Qed.

(** *** Debouncing *)

Lemma rebuildsOf_app pid a b : rebuildsOf pid (a ++ b) = rebuildsOf pid a ++ rebuildsOf pid b.
Proof. apply omap_app. Qed.

Lemma rebuildProject_timers p trigger s :
  timers (rebuildProject p trigger s) = timers s
  ∧ rebuildTimeouts (rebuildProject p trigger s) = rebuildTimeouts s
  ∧ now (rebuildProject p trigger s) = now s
  ∧ rebuildsOf (p_id p) (console (rebuildProject p trigger s)) = rebuildsOf (p_id p) (console s) ++ [trigger]
  ∧ (∀ pid, pid ≠ p_id p → rebuildsOf pid (console (rebuildProject p trigger s)) = rebuildsOf pid (console s)).
Proof.
  destruct s. unfold rebuildProject, finishRebuild, failRebuild, updateProjectServer, broadcastToProject, emit, log, fresh. simpl.
  destruct (previewServers0 !! p_id p); simpl; [destruct (typescript (p_config p)); simpl|].
  all: repeat split; try done; repeat case_match; simpl; try done.
  all: try (rewrite ?rebuildsOf_app; simpl; rewrite ?decide_True by done; by rewrite ?app_nil_r).
  all: intros pid Hne; rewrite ?rebuildsOf_app; simpl; rewrite ?decide_False by done; by rewrite ?app_nil_r.
Qed.

Lemma fires_effect pid l s :
  timers (foldl fire s l) = timers s
  ∧ rebuildTimeouts (foldl fire s l) = rebuildTimeouts s
  ∧ rebuildsOf pid (console (foldl fire s l))
    = rebuildsOf pid (console s) ++ ((λ _, "file-change") <$> timersOf pid l).
Proof.
  revert s. induction l as [|t l IH]; intros s; simpl.
  { by rewrite app_nil_r. }
  destruct (IH (fire s t)) as (-> & -> & ->). unfold fire.
  destruct (rebuildProject_timers (t_project t) "file-change"
              (upd_now (Nat.max (t_deadline t)) s)) as (-> & -> & _ & Hsame & Hother).
  repeat split; try by destruct s.
  unfold timersOf. rewrite filter_cons. case_decide as Hpid.
  - subst pid. rewrite Hsame. destruct s; simpl. by rewrite <- app_assoc.
  - rewrite Hother by done. by destruct s.
Qed.

Lemma advance_effect pid ms s :
  timers (advance ms s) = filter (λ t, ¬ t_deadline t ≤ now s + ms) (timers s)
  ∧ rebuildTimeouts (advance ms s) = rebuildTimeouts s
  ∧ now (advance ms s) = now s + ms
  ∧ rebuildsOf pid (console (advance ms s))
    = rebuildsOf pid (console s)
      ++ ((λ _, "file-change")
            <$> timersOf pid (filter (λ t, t_deadline t ≤ now s + ms) (timers s))).
Proof.
  unfold advance. cbv zeta.
  match goal with |- context [foldl fire ?s0 ?l] =>
    destruct (fires_effect pid l s0) as (Ht & Hr & Hc) end.
  repeat split.
  - etrans; [|etrans; [exact Ht|]]; by destruct s.
  - etrans; [|etrans; [exact Hr|]]; by destruct s.
  - etrans; [|etrans; [exact Hc|]]; by destruct s.
Qed.

Lemma handleFileChange_effect p filePath ty s :
  timers (handleFileChange p filePath ty s)
  = match rebuildTimeouts s !! p_id p with
    | Some t => filter (λ tm, t_id tm ≠ t) (timers s)
    | None => timers s
    end ++ [{| t_id := nextHandle s; t_deadline := now s + debounceTime;
               t_project := p |}]
  ∧ rebuildTimeouts (handleFileChange p filePath ty s)
    = <[p_id p := nextHandle s]> (rebuildTimeouts s)
  ∧ now (handleFileChange p filePath ty s) = now s
  ∧ (∀ pid, rebuildsOf pid (console (handleFileChange p filePath ty s))
            = rebuildsOf pid (console s)).
Proof.
  destruct s. unfold LivePreview.handleFileChange, debouncedRebuild, clearTimeout,
    broadcastToProject, emit, log, fresh. simpl.
  destruct (rebuildTimeouts0 !! p_id p); simpl;
    destruct (connections0 !! p_id p); simpl; repeat split; try done.
  all: intros pid; rewrite rebuildsOf_app; simpl; by rewrite app_nil_r.
Qed.

Lemma TimersOk_handleFileChange p filePath ty s :
  TimersOk s → TimersOk (handleFileChange p filePath ty s).
Proof.
  intros HT t. destruct (handleFileChange_effect p filePath ty s) as (-> & -> & _).
  rewrite elem_of_app, list_elem_of_singleton. intros [Hin | ->].
  - assert (t ∈ timers s ∧ (∀ t0, rebuildTimeouts s !! p_id p = Some t0 → t_id t ≠ t0)) as [Hin' Hne].
    { destruct (rebuildTimeouts s !! p_id p) as [t0|].
      - apply list_elem_of_filter in Hin as [? ?]. split; [done|]. by intros ? [= <-].
      - split; [done|]. by intros. }
    pose proof (HT _ Hin') as Hreg.
    destruct (decide (p_id (t_project t) = p_id p)) as [Heq|Hneq].
    + rewrite Heq in Hreg. by destruct (Hne _ Hreg).
    + by rewrite lookup_insert_ne.
  - simpl. by rewrite lookup_insert_eq.
Qed.

Lemma TimersOk_advance ms s : TimersOk s → TimersOk (advance ms s).
Proof.
  intros HT t. destruct (advance_effect "" ms s) as (-> & -> & _).
  intros [_ Hin]%list_elem_of_filter. by apply HT.
Qed.

Lemma filter_none {A} (P : A → Prop) `{!∀ x, Decision (P x)} (l : list A) :
  (∀ x, x ∈ l → ¬ P x) → filter P l = [].
Proof.
  induction l as [|x l IH]; intros Hall; [done|].
  rewrite filter_cons, decide_False by (apply Hall; by left).
  apply IH. intros y Hy. apply Hall. by right.
Qed.

Lemma filter_swap {A} (P Q : A → Prop) `{!∀ x, Decision (P x)} `{!∀ x, Decision (Q x)}
    (l : list A) :
  filter P (filter Q l) = filter Q (filter P l).
Proof.
  induction l as [|x l IH]; [done|].
  rewrite !filter_cons. destruct (decide (Q x)), (decide (P x));
    rewrite ?filter_cons, ?decide_True, ?decide_False by done; by rewrite IH.
Qed.

(** After an event of [p], exactly one timer of [p]'s id is pending, and it is
    due a full window later. *)
Lemma timersOf_handleFileChange p filePath ty s :
  TimersOk s →
  timersOf (p_id p) (timers (handleFileChange p filePath ty s))
  = [{| t_id := nextHandle s; t_deadline := now s + debounceTime; t_project := p |}].
Proof.
  intros HT. destruct (handleFileChange_effect p filePath ty s) as (-> & _).
  unfold timersOf. rewrite filter_app, filter_cons, decide_True by done.
  rewrite filter_nil.
  match goal with |- ?l ++ _ = _ => assert (l = []) as ->; [|done] end.
  apply filter_none. intros t Hin Hpid. pose proof HT as HT'.
  destruct (rebuildTimeouts s !! p_id p) as [t0|] eqn:E.
  - apply list_elem_of_filter in Hin as [Hne Hin].
    specialize (HT _ Hin). rewrite Hpid, E in HT. by injection HT.
  - specialize (HT _ Hin). rewrite Hpid, E in HT. done.
Qed.

Lemma Armed_handleFileChange p filePath ty s :
  TimersOk s → Armed p (handleFileChange p filePath ty s).
Proof.
  intros HT. split; [by apply TimersOk_handleFileChange|].
  destruct (handleFileChange_effect p filePath ty s) as (_ & _ & Hnow & _).
  eexists. split; [by apply timersOf_handleFileChange|]. by rewrite Hnow.
Qed.

Lemma advance_quiet p ms s :
  Armed p s → ms < debounceTime →
  rebuildsOf (p_id p) (console (advance ms s)) = rebuildsOf (p_id p) (console s).
Proof.
  intros [_ (tm & Htm & Hd)] Hlt.
  destruct (advance_effect (p_id p) ms s) as (_ & _ & _ & ->).
  unfold timersOf in *. rewrite filter_swap, Htm.
  rewrite filter_cons, decide_False by lia. simpl. by rewrite app_nil_r.
Qed.

Lemma advance_fires p s :
  Armed p s →
  rebuildsOf (p_id p) (console (advance debounceTime s))
  = rebuildsOf (p_id p) (console s) ++ ["file-change"]
  ∧ timersOf (p_id p) (timers (advance debounceTime s)) = [].
Proof.
  intros [_ (tm & Htm & Hd)].
  destruct (advance_effect (p_id p) debounceTime s) as (-> & _ & _ & ->).
  unfold timersOf in *. rewrite !(filter_swap (λ t, p_id (t_project t) = p_id p)), Htm.
  rewrite !filter_cons, decide_True, decide_False by lia. done.
Qed.

Lemma burst_steps p es s :
  Armed p s → Forall (λ ge : nat * FileEvent, ge.1 < debounceTime) es →
  let s' := foldl (λ acc ge, handleFileChange p (fe_path ge.2) (fe_type ge.2)
                               (advance ge.1 acc)) s es in
  Armed p s'
  ∧ rebuildsOf (p_id p) (console s') = rebuildsOf (p_id p) (console s)
  ∧ ∃ changes, rebuildQueue s' = rebuildQueue s ++ changes
      ∧ ci_filePath <$> changes = (λ e, path_relative (p_path p) (fe_path e)) <$> es.*2
      ∧ Forall (λ c, ci_projectId c = p_id p) changes.
Proof.
  revert s. induction es as [|[gap e] es IH]; intros s HA Hgaps; simpl.
  { split; [done|]. split; [done|]. exists []. by rewrite app_nil_r. }
  apply Forall_cons in Hgaps as [Hgap Hgaps]. simpl in Hgap.
  set (s1 := handleFileChange p (fe_path e) (fe_type e) (advance gap s)).
  assert (Armed p s1) as HA1.
  { apply Armed_handleFileChange, TimersOk_advance, HA. }
  destruct (IH s1 HA1 Hgaps) as (HA' & Hc & changes & Hq & Hpaths & Hids).
  split; [done|]. split.
  - rewrite Hc. subst s1.
    destruct (handleFileChange_effect p (fe_path e) (fe_type e) (advance gap s))
      as (_ & _ & _ & ->).
    by apply advance_quiet.
  - exists (changeInfoOf p (fe_path e) (fe_type e) (advance gap s) :: changes).
    split; [|split].
    + rewrite Hq. subst s1. rewrite rebuildQueue_handleFileChange, rebuildQueue_advance.
      by rewrite <- app_assoc.
    + by rewrite !fmap_cons, Hpaths.
    + by constructor.
Qed.

Lemma TimersOk_step s i : TimersOk s → TimersOk (step s i).
Proof.
  intros HT. destruct i; cbn [LivePreview.step].
  5: { unfold LivePreview.fsEvent. repeat case_match; try done.
       by apply TimersOk_handleFileChange. }
  9: by apply TimersOk_advance.
  all: intros t; destruct s; unfold TimersOk in HT; revert HT t;
    unfold dispose; crush_ops; eauto.
Qed.

Lemma TimersOk_reachable s : reachable path_relative s → TimersOk s.
Proof.
  apply reachable_ind; [by intros t ?%elem_of_nil | intros; by apply TimersOk_step].
Qed.

(** C1. From any reachable state, a burst of events for one project in which
    each event follows the one before by less than the debounce time, then
    a quiet debounce time, makes exactly one call of [rebuildProject] for
    that project, with the trigger [file-change] and no batch; no timer of
    the project stays pending; the change records of the burst, one per
    event with its relative path, have been appended to the global
    [rebuildQueue], where they remain. *)
Theorem debounce_one_rebuild (s : State) (p : Project) (e0 : FileEvent)
    (es : list (nat * FileEvent)) :
  reachable path_relative s →
  Forall (λ ge : nat * FileEvent, ge.1 < debounceTime) es →
  let s' := advance debounceTime (burst path_relative p e0 es s) in
  rebuildsOf (p_id p) (console s') = rebuildsOf (p_id p) (console s) ++ ["file-change"]
  ∧ timersOf (p_id p) (timers s') = []
  ∧ ∃ changes, rebuildQueue s' = rebuildQueue s ++ changes
      ∧ ci_filePath <$> changes
        = (λ e, path_relative (p_path p) (fe_path e)) <$> (e0 :: es.*2)
      ∧ Forall (λ c, ci_projectId c = p_id p) changes.
Proof.
  intros Hr Hgaps s'. subst s'. unfold burst.
  set (s0 := handleFileChange p (fe_path e0) (fe_type e0) s).
  assert (Armed p s0) as HA0 by apply Armed_handleFileChange, TimersOk_reachable, Hr.
  destruct (burst_steps p es s0 HA0 Hgaps) as (HA & Hc & changes & Hq & Hpaths & Hids).
  destruct (advance_fires p _ HA) as [Hfire Hnone].
  split; [|split; [done|]].
  - rewrite Hfire, Hc. subst s0.
    by destruct (handleFileChange_effect p (fe_path e0) (fe_type e0) s) as (_ & _ & _ & ->).
  - exists (changeInfoOf p (fe_path e0) (fe_type e0) s :: changes). split; [|split].
    + rewrite rebuildQueue_advance, Hq. subst s0.
      rewrite rebuildQueue_handleFileChange. by rewrite <- app_assoc.
    + by rewrite !fmap_cons, Hpaths.
    + by constructor.
Qed.
(** *** Rebuilds in flight *)

(** C2. Nothing serializes rebuilds.  For a project that has its entry and
    the TypeScript step, every call of [rebuildProject] (from a debounce
    timer or by hand) suspends one more rebuild at the compile step, whatever
    is in flight already: the rebuilds in flight for the project grow by one
    each time, and nothing is merged, queued or sent. *)
Theorem rebuilds_run_side_by_side (s : State) (p : Project) (trigger : string) :
  is_Some (previewServers s !! p_id p) → typescript (p_config p) = true →
  jobs (rebuildProject p trigger s)
  = jobs s ++ [{| j_id := nextHandle s; j_project := p; j_trigger := trigger |}]
  ∧ List.length (inFlight (p_id p) (rebuildProject p trigger s))
    = S (List.length (inFlight (p_id p) s))
  ∧ sockets (rebuildProject p trigger s) = sockets s.
Proof.
  intros [si Hsi] Hts. unfold inFlight.
  assert (jobs (rebuildProject p trigger s)
          = jobs s ++ [{| j_id := nextHandle s; j_project := p; j_trigger := trigger |}]) as Hj.
  { destruct s. unfold rebuildProject, log, fresh. simpl in *. by rewrite Hsi, Hts. }
  split; [done|]. split.
  - rewrite Hj, filter_app, filter_cons, decide_True by done.
    rewrite length_app. simpl. lia.
  - destruct s. unfold rebuildProject, log, fresh. simpl in *. by rewrite Hsi, Hts.
Qed.

(** *** Servers and watchers *)

Lemma nextHandle_step s i : nextHandle s ≤ nextHandle (step s i).
Proof.
  destruct i; cbn [LivePreview.step].
  10: { unfold advance. cbv zeta.
        transitivity (nextHandle (upd_timers (filter (λ t, ¬ t_deadline t ≤ now s + ms)) s)); [by destruct s|].
        generalize (upd_timers (filter (λ t, ¬ t_deadline t ≤ now s + ms)) s).
        generalize (filter (λ t, t_deadline t ≤ now s + ms) (timers s)).
        intros l s0. transitivity (nextHandle (foldl fire s0 l)); [|by destruct (foldl fire s0 l)].
        revert s0. induction l as [|t l IH]; intros s0; simpl; [done|].
        etrans; [|apply IH]. unfold fire. destruct s0. unfold rebuildProject. crush_ops; lia. }
  all: destruct s; unfold LivePreview.fsEvent, dispose, rebuildProject; crush_ops; lia.
Qed.

(** Fields that a rebuild and the clock leave alone are left alone by the
    timers that fire. *)
Lemma fires_frame {A} (proj : State → A) :
  (∀ p trigger s, proj (rebuildProject p trigger s) = proj s) →
  (∀ f s, proj (upd_now f s) = proj s) →
  ∀ l s, proj (foldl fire s l) = proj s.
Proof.
  intros Hr Hn l. induction l as [|t l IH]; intros s; simpl; [done|].
  rewrite IH. unfold fire. by rewrite Hr, Hn.
Qed.

Lemma advance_frame {A} (proj : State → A) :
  (∀ p trigger s, proj (rebuildProject p trigger s) = proj s) →
  (∀ f s, proj (upd_now f s) = proj s) →
  (∀ f s, proj (upd_timers f s) = proj s) →
  ∀ ms s, proj (advance ms s) = proj s.
Proof.
  intros Hr Hn Ht ms s. unfold advance. cbv zeta.
  by rewrite Hn, (fires_frame proj Hr Hn), Ht.
Qed.

Lemma httpServers_advance ms s : httpServers (advance ms s) = httpServers s.
Proof.
  apply (advance_frame httpServers); try (by intros ? []).
  intros p trigger []. unfold rebuildProject. by crush_ops.
Qed.

Lemma watchers_advance ms s : watchers (advance ms s) = watchers s.
Proof.
  apply (advance_frame watchers); try (by intros ? []).
  intros p trigger []. unfold rebuildProject. by crush_ops.
Qed.

Lemma foldl_alter_is_Some {V} (f : V → V) (l : list nat) (m : gmap nat V) (h : nat) :
  is_Some (foldl (λ acc w, alter f w acc) m l !! h) ↔ is_Some (m !! h).
Proof.
  revert m. induction l as [|w l IH]; intros m; simpl; [done|].
  rewrite IH, lookup_alter. case_decide; [subst; apply fmap_is_Some | done].
Qed.

Lemma HandlesFresh_step s i : HandlesFresh s → HandlesFresh (step s i).
Proof.
  intros [Hh Hw]. pose proof (nextHandle_step s i) as Hle. revert Hle.
  unfold HandlesFresh. destruct i; cbn [LivePreview.step];
    rewrite ?httpServers_advance, ?watchers_advance.
  10: { intros Hle. split; intros h Hs; [specialize (Hh h Hs) | specialize (Hw h Hs)]; lia. }
  all: destruct s; unfold HandlesFresh, LivePreview.fsEvent, dispose, rebuildProject in *;
    crush_ops; intros Hle.
  all: split; intros h; rewrite ?lookup_insert, ?lookup_alter, ?lookup_insert_ne by lia;
    repeat case_decide; subst; intros Hs;
    rewrite ?foldl_alter_is_Some, ?fmap_is_Some in Hs; try lia;
    first [specialize (Hh h Hs) | specialize (Hw h Hs)]; lia.
Qed.

Lemma HandlesFresh_reachable s : reachable path_relative s → HandlesFresh s.
Proof.
  apply reachable_ind; [|intros; by apply HandlesFresh_step].
  split; intros h; simpl; rewrite lookup_empty; by intros [? ?].
Qed.

(** C4. Setting a project up is not idempotent.  In every reachable state,
    [setupProject] creates a server under a handle that no server has yet
    and makes it listen on the port it was given, so there is one listening
    server more than before, and it opens a watcher under a handle that no
    watcher has yet, so the earlier ones stay as they are; the entry of the
    project id in [previewServers] is overwritten with the new binding, so a
    lookup of the id finds one session, the latest. *)
Theorem setupProject_opens_new_server (s : State) (p : Project) (port : nat) :
  reachable path_relative s →
  let s' := setupProject p port s in
  httpServers s !! nextHandle s = None
  ∧ watchers s !! S (nextHandle s) = None
  ∧ httpServers s'
    = <[nextHandle s := {| hs_project := p; hs_port := port; hs_listening := true |}]>
        (httpServers s)
  ∧ size (httpServers s') = S (size (httpServers s))
  ∧ previewServers s'
    = <[p_id p := {| si_project := p; si_url := projectUrlOf p;
                     si_server := {| sb_server := nextHandle s; sb_port := port |};
                     si_port := port; si_status := "ready";
                     si_startTime := now s |}]> (previewServers s)
  ∧ watchers s'
    = <[S (nextHandle s) := {| w_project := p; w_open := true |}]> (watchers s).
Proof.
  intros Hr s'. destruct (HandlesFresh_reachable _ Hr) as [Hh Hw].
  assert (httpServers s !! nextHandle s = None) as Hfresh.
  { apply eq_None_not_Some. intros Hs. specialize (Hh _ Hs). lia. }
  assert (watchers s !! S (nextHandle s) = None) as Hfresh'.
  { apply eq_None_not_Some. intros Hs. specialize (Hw _ Hs). lia. }
  subst s'. destruct s. unfold setupProject. crush_ops; simpl in *.
  all: repeat split; try done; by rewrite map_size_insert_None.
Qed.


Lemma watchers_handleFileChange p filePath ty s :
  watchers (handleFileChange p filePath ty s) = watchers s.
Proof. destruct s. by crush_ops. Qed.

Lemma fsEvent_handled w p filePath ty s :
  watchers s !! w = Some {| w_project := p; w_open := true |} →
  shouldIgnoreFile filePath = false →
  fsEvent w filePath ty s = handleFileChange p filePath ty s.
Proof. intros Hw Hi. unfold LivePreview.fsEvent. by rewrite Hw, Hi. Qed.

(** A burst is what the event loop does with the events of an open watcher
    of the project, none of them ignored, and the time between them. *)
Lemma burst_is_run w p e0 es s :
  watchers s !! w = Some {| w_project := p; w_open := true |} →
  shouldIgnoreFile (fe_path e0) = false →
  Forall (λ ge : nat * FileEvent, shouldIgnoreFile (fe_path ge.2) = false) es →
  run s (burstInputs w e0 es) = burst path_relative p e0 es s.
Proof.
  intros Hw H0 Hes. unfold burstInputs, burst, LivePreview.run. cbn [foldl LivePreview.step].
  rewrite (fsEvent_handled w p) by done.
  assert (watchers (handleFileChange p (fe_path e0) (fe_type e0) s) !! w
          = Some {| w_project := p; w_open := true |}) as Hw0.
  { by rewrite watchers_handleFileChange. }
  revert Hw0. generalize (handleFileChange p (fe_path e0) (fe_type e0) s). clear Hw H0.
  induction Hes as [|[gap e] es He Hes IH]; intros s0 Hw0; [done|].
  cbn [flat_map app foldl LivePreview.step]. simpl in He.
  rewrite (fsEvent_handled w p); [|by rewrite watchers_advance|done].
  apply IH. by rewrite watchers_handleFileChange, watchers_advance.
Qed.
(** *** The compile step *)

Lemma jobs_advance_incl ms s job : job ∈ jobs s → job ∈ jobs (advance ms s).
Proof.
  intros Hin. unfold advance. cbv zeta.
  assert (∀ l s0, job ∈ jobs s0 → job ∈ jobs (foldl fire s0 l)) as Hf.
  { intros l. induction l as [|t l IH]; intros s0 H0; simpl; [done|].
    apply IH. unfold fire. destruct s0. unfold rebuildProject. crush_ops; set_solver. }
  match goal with |- _ ∈ jobs (upd_now _ ?x) => assert (job ∈ jobs x) as H; [|by destruct x] end.
  apply Hf. by destruct s.
Qed.

(** [rebuild-error] is what a rebuild of a project without an entry in
    [previewServers] sends. *)
Lemma rebuildProject_unregistered p trigger s :
  previewServers s !! p_id p = None →
  sockets (rebuildProject p trigger s)
  = match connections s !! p_id p with
    | Some conns =>
        sendAll conns (MRebuildError (p_id p) "Preview server not found for project"
                         (now s)) (sockets s)
    | None => sockets s
    end
  ∧ jobs (rebuildProject p trigger s) = jobs s.
Proof.
  intros Hnone. destruct s. unfold rebuildProject. simpl in *. crush_ops; done.
Qed.

(** C6. When the compile step of a suspended rebuild ends, with success or
    with an error, the rebuild goes on to its end: [rebuild-complete] is sent
    to the sockets of the project and [rebuildComplete] is emitted, the same
    for both results, and the job leaves the list.  Later triggers start
    rebuilds as before.  No timer is set for a rebuild, and a job whose
    compile step has not ended stays in flight however much time passes.
    [rebuild-error] is what a rebuild sends when the project has no entry in
    [previewServers], with the message of that error as it is. *)
Theorem compile_failure_is_swallowed (s : State) (j : nat) (job : Job)
    (result : option string) :
  List.find (λ job, Nat.eqb (j_id job) j) (jobs s) = Some job →
  let pid := p_id (j_project job) in
  let s' := compileDone j result s in
  sockets s'
  = match connections s !! pid with
    | Some conns =>
        sendAll conns (MRebuildComplete pid (j_trigger job) (now s)) (sockets s)
    | None => sockets s
    end
  ∧ emitted s'
    = emitted (updateProjectServer (j_project job) s)
      ++ [ERebuildComplete (j_project job) (j_trigger job)]
  ∧ jobs s' = filter (λ job', j_id job' ≠ j) (jobs s)
  ∧ (∀ p trigger,
       timers (rebuildProject p trigger s) = timers s
       ∧ rebuildsOf (p_id p) (console (rebuildProject p trigger s'))
         = rebuildsOf (p_id p) (console s') ++ [trigger])
  ∧ (∀ ms, job ∈ jobs (advance ms s))
  ∧ (∀ p trigger,
       previewServers s !! p_id p = None →
       sockets (rebuildProject p trigger s)
       = match connections s !! p_id p with
         | Some conns =>
             sendAll conns (MRebuildError (p_id p)
                              "Preview server not found for project" (now s))
               (sockets s)
         | None => sockets s
         end).
Proof.
  intros Hfind pid s'. split; [|split; [|split; [|split; [|split]]]].
  - subst s' pid. destruct s. unfold compileDone. crush_ops; done.
  - subst s' pid. destruct s. unfold compileDone. crush_ops; done.
  - subst s' pid. destruct s. unfold compileDone. crush_ops; done.
  - intros p trigger. split.
    + by destruct (rebuildProject_timers p trigger s) as (-> & _).
    + by destruct (rebuildProject_timers p trigger s') as (_ & _ & _ & -> & _).
  - intros ms. apply jobs_advance_incl.
    by apply find_some in Hfind as [?%list_elem_of_In _].
  - intros p trigger Hnone. by apply rebuildProject_unregistered.
Qed.

(** *** Teardown *)

Lemma closeSocket_idemp sock : closeSocket (closeSocket sock) = closeSocket sock.
Proof. by destruct sock as [[] ? ?]. Qed.

Lemma closeAll_lookup cs socks ws :
  closeAll cs socks !! ws
  = if decide (ws ∈ cs) then closeSocket <$> socks !! ws else socks !! ws.
Proof.
  unfold closeAll. revert socks. induction cs as [|c cs IH]; intros socks; cbn [foldl].
  { rewrite decide_False; [done | apply not_elem_of_nil]. }
  rewrite IH, lookup_alter. destruct (decide (c = ws)) as [->|Hne].
  - rewrite (decide_True (P := ws ∈ ws :: cs)) by (by left).
    case_decide; [|done]. rewrite <- option_fmap_compose.
    apply option_fmap_ext. intros sock. apply closeSocket_idemp.
  - destruct (decide (ws ∈ cs)).
    + by rewrite decide_True by (by right).
    + rewrite decide_False; [done|]. by intros [?|?]%elem_of_cons.
Qed.

Lemma sendAll_lookup_closed cs m socks ws sock :
  socks !! ws = Some sock → ws_readyState sock ≠ OPEN →
  sendAll cs m socks !! ws = Some sock.
Proof.
  unfold sendAll. revert socks. induction cs as [|c cs IH]; intros socks Hs Hc; simpl; [done|].
  apply IH; [|done]. rewrite lookup_alter. case_decide; [|done]. subst.
  rewrite Hs. simpl. f_equal. by destruct sock as [[] ? ?].
Qed.

Lemma sendGlobal_lookup_closed L m socks ws sock :
  socks !! ws = Some sock → ws_readyState sock ≠ OPEN →
  foldl (λ acc cs, sendAll cs m acc) socks L !! ws = Some sock.
Proof.
  revert socks. induction L as [|cs L IH]; intros socks Hs Hc; simpl; [done|].
  apply IH; [|done]. by apply sendAll_lookup_closed.
Qed.

End WithPath.

End PreviewFacts.

(** ** The express application *)

Module ServerFacts.
Import LivePreview ProjectServer.
Section WithExpress.

Variable serveStatic : string → Method → string → option string.
Variable mounted : string → string → option string.
Variable path_join : string → string → string.
Local Abbreviation handle := (ProjectServer.handle serveStatic mounted path_join).
Local Abbreviation matches := (ProjectServer.matches mounted).
Local Abbreviation distMiss := (ProjectServer.distMiss serveStatic mounted path_join).

Lemma find_first {A} (f : A → bool) (pre post : list A) (x : A) :
  Forall (λ y, f y = false) pre → f x = true →
  List.find f (pre ++ x :: post) = Some x.
Proof.
  induction 1 as [|y pre Hy Hpre IH]; intros Hx; simpl; [by rewrite Hx|].
  rewrite Hy. by apply IH.
Qed.

Lemma find_none_Forall {A} (f : A → bool) (l : list A) :
  Forall (λ y, f y = false) l → List.find f l = None.
Proof. induction 1 as [|y l Hy Hl IH]; simpl; [done|]. by rewrite Hy. Qed.

End WithExpress.

End ServerFacts.

(** ** The permission check *)

Module SandboxFacts.
Import JsString SecuritySandbox.
Section WithFs.

Variable path_resolve : string → string.
Variable statSize : string → option N.
Local Abbreviation checkFilePermission := (SecuritySandbox.checkFilePermission path_resolve statSize).

Lemma checkFilePermission_blocked filePath operation sb blockedPath :
  blockedPath ∈ blockedPaths sb →
  startsWith (path_resolve filePath) blockedPath = true →
  (checkFilePermission filePath operation sb).1 = false.
Proof.
  intros Hin Hpre. unfold SecuritySandbox.checkFilePermission. cbv zeta.
  assert (existsb (λ b, startsWith (path_resolve filePath) b) (blockedPaths sb) = true) as ->; [|done].
  apply existsb_exists. exists blockedPath. split; [by apply list_elem_of_In | done].
Qed.

Lemma checkFilePermission_granted filePath operation sb :
  (checkFilePermission filePath operation sb).1 = true →
  (∀ b, b ∈ blockedPaths sb → startsWith (path_resolve filePath) b = false)
  ∧ (∃ a, a ∈ allowedPaths sb ∧ startsWith (path_resolve filePath) a = true).
Proof.
  unfold SecuritySandbox.checkFilePermission. cbv zeta.
  destruct (existsb _ (blockedPaths sb)) eqn:Eb; [done|].
  destruct (existsb _ (allowedPaths sb)) eqn:Ea; [|done]. intros _. split.
  - intros b Hb. apply not_true_is_false. intros Hs.
    assert (existsb (λ b, startsWith (path_resolve filePath) b) (blockedPaths sb) = true); [|congruence].
    apply existsb_exists. exists b. split; [by apply list_elem_of_In | done].
  - apply existsb_exists in Ea as (a & Ha & Hs). exists a. split; [by apply list_elem_of_In | done].
Qed.

(** No decision is remembered: the rule sets are read again at each call. *)
Lemma checkFilePermission_rules filePath operation sb :
  blockedPaths (checkFilePermission filePath operation sb).2 = blockedPaths sb
  ∧ allowedPaths (checkFilePermission filePath operation sb).2 = allowedPaths sb.
Proof.
  unfold SecuritySandbox.checkFilePermission, denied, logSecurityEvent. cbv zeta.
  repeat case_match; done.
Qed.

End WithFs.

End SandboxFacts.

(** ** The preview and the permission check together *)

Module PermissionFacts.
Import JsString LivePreview ProjectServer SecuritySandbox PreviewFacts SandboxFacts.

Section WithLibraries.

Variable path_resolve : string → string.
Variable statSize : string → option N.
Variable serveStatic : string → Method → string → option string.
Variable mounted : string → string → option string.
Variable path_join : string → string → string.

Local Abbreviation checkFilePermission :=
  (SecuritySandbox.checkFilePermission path_resolve statSize).
Local Abbreviation handle := (ProjectServer.handle serveStatic mounted path_join).

(** C3. The preview does not consult the permission check and keeps no
    record of permissions.  For every project, whatever its path,
    [setupProject] opens a watcher on it and starts a listening server for
    it; the only file the preview's own request handler names is the
    project's [index.html] (files below the root are sent by
    [express.static]).  The check exists in the sandbox: called on a path,
    it denies one whose resolved form starts with a blocked path, it grants
    only a path that starts with no blocked path and with some allowed path,
    and it reads the rule sets again at every call. *)
Theorem preview_never_asks_permission (sb : Sandbox) (s : State) (p : Project)
    (port : nat) (req : Request) (filePath operation : string) :
  let s' := setupProject p port s in
  watchers s' !! S (nextHandle s) = Some {| w_project := p; w_open := true |}
  ∧ httpServers s' !! nextHandle s
    = Some {| hs_project := p; hs_port := port; hs_listening := true |}
  ∧ (∀ file, handle p req = SendFile file →
       file = path_join (p_path p) "index.html")
  ∧ (∀ blockedPath,
       blockedPath ∈ blockedPaths sb →
       startsWith (path_resolve filePath) blockedPath = true →
       (checkFilePermission filePath operation sb).1 = false)
  ∧ ((checkFilePermission filePath operation sb).1 = true →
       (∀ b, b ∈ blockedPaths sb → startsWith (path_resolve filePath) b = false)
       ∧ (∃ a, a ∈ allowedPaths sb ∧ startsWith (path_resolve filePath) a = true))
  ∧ blockedPaths (checkFilePermission filePath operation sb).2 = blockedPaths sb
  ∧ allowedPaths (checkFilePermission filePath operation sb).2 = allowedPaths sb.
Proof.
  intros s'. split; [|split; [|split; [|split; [|split]]]].
  - subst s'. destruct s. unfold setupProject. crush_ops; apply lookup_insert_eq.
  - subst s'. destruct s. unfold setupProject. crush_ops; apply lookup_insert_eq.

  - intros file. unfold ProjectServer.handle.
    repeat case_match; try done; by intros [= <-].
  - intros blockedPath. apply checkFilePermission_blocked.
  - apply checkFilePermission_granted.
  - apply checkFilePermission_rules.
Qed.

End WithLibraries.

(** The entry that [setupProject] writes makes [stopPreview] throw: the
    entry stays, and the server keeps its port. *)
Lemma stopPreview_throws (s : State) (projectId : string) (serverInfo : ServerInfo) :
  previewServers s !! projectId = Some serverInfo →
  (stopPreview projectId s).2 = Thrown "serverInfo.server.close is not a function"
  ∧ previewServers (stopPreview projectId s).1 !! projectId = Some serverInfo
  ∧ httpServers (stopPreview projectId s).1 = httpServers s.
Proof.
  intros Hs. destruct s. unfold stopPreview. simpl in *.
  destruct (projectWatchers0 !! projectId); simpl;
    destruct (connections0 !! projectId); simpl; by rewrite Hs.
Qed.

End PermissionFacts.

(** ** The properties on concrete runs *)

Module ScenarioFacts.
Import JsString LivePreview Observe Scenario.

(** *** Where the code departs from the specification *)

(** Against C1: three changes within 20 ms, then a quiet window.  One
    rebuild has run to its end, and the three change records are still in
    the rebuild queue: no batch was handed over and none was cleared. *)
Lemma batch_not_cleared_after_rebuild :
  rebuildsOf "app" (console burstDone) = ["file-change"]
  ∧ last (console burstDone) = Some (LRebuilt app)
  ∧ ci_filePath <$> rebuildQueue burstDone = ["a.txt"; "a.txt"; "b.txt"].
Proof. by vm_compute. Qed.

(** Against C2: two rebuilds of one project are suspended at the compile
    step at the same time, one from the debounce timer and one by hand. *)
Lemma two_rebuilds_in_flight :
  j_trigger <$> inFlight "ts" twoTriggers = ["file-change"; "manual"].
Proof. by vm_compute. Qed.

(** Against C3: the permission check denies [/etc/nginx], and the preview
    watches and serves it all the same. *)
Lemma denied_path_is_watched_and_served :
  (SecuritySandbox.checkFilePermission resolved noStat "/etc/nginx" "read" sandbox).1
  = false
  ∧ watchers (go [ISetupProject etcApp 4000]) !! 1
    = Some {| w_project := etcApp; w_open := true |}
  ∧ httpServers (go [ISetupProject etcApp 4000]) !! 0
    = Some {| hs_project := etcApp; hs_port := 4000; hs_listening := true |}.
Proof. by vm_compute. Qed.

(** Against C4: after a second setup of the same project two servers listen,
    on two ports, and two watchers are open. *)
Lemma second_setup_opens_second_port :
  hs_port <$> httpServers setupTwice = {[ 0 := 4000; 2 := 4001 ]}
  ∧ hs_listening <$> httpServers setupTwice = {[ 0 := true; 2 := true ]}
  ∧ w_open <$> watchers setupTwice = {[ 1 := true; 3 := true ]}.
Proof. by vm_compute. Qed.


(** Against C6: the compile step fails and the viewer receives
    [rebuild-complete], not [rebuild-error]; and a compile step that runs for
    40 s is not cut off: nothing is sent and the job stays in flight. *)
Lemma failed_compile_sends_rebuild_complete :
  ws_inbox <$> sockets compileFailed !! 2
  = Some [MProjectState "ts" "/projects/ts" "ready" 4000;
          MRebuildComplete "ts" "manual" 0]
  ∧ ws_inbox <$> sockets compileHangs !! 2
    = Some [MProjectState "ts" "/projects/ts" "ready" 4000]
  ∧ j_id <$> inFlight "ts" compileHangs = [3].
Proof. by vm_compute. Qed.


(** Against C8: a viewer of project [app] receives the [preview-stopped]
    message of another project id. *)
Lemma project_socket_hears_other_project :
  sockets otherStopped !! 2
  = Some {| ws_readyState := OPEN; ws_project := Some "app";
            ws_inbox := [MProjectState "app" "/projects/app" "ready" 4000;
                         MPreviewStopped "other" 0] |}.
Proof. by vm_compute. Qed.

(** The paths of C9: the first two are ignored for [dist] in [distance] and
    [build] in [rebuild]; a log file and an env file are not ignored. *)
Lemma shouldIgnoreFile_examples :
  shouldIgnoreFile "src/distance.js" = true
  ∧ shouldIgnoreFile "rebuild-notes.md" = true
  ∧ shouldIgnoreFile "logs/server.log" = false
  ∧ shouldIgnoreFile "config/.env" = false.
Proof. by vm_compute. Qed.

(** *** The theorems at concrete inputs *)

Lemma ready_reachable : reachable relativeTo ready.
Proof. by exists [ISetupProject app 4000]. Qed.

Lemma debounce_one_rebuild_witness :
  reachable relativeTo ready
  ∧ Forall (λ ge : nat * FileEvent, ge.1 < debounceTime) [(10, aTxt); (10, bTxt)]
  ∧ rebuildsOf "app"
      (console (advance debounceTime
                  (burst relativeTo app aTxt [(10, aTxt); (10, bTxt)] ready)))
    = rebuildsOf "app" (console ready) ++ ["file-change"].
Proof.
  assert (Forall (λ ge : nat * FileEvent, ge.1 < debounceTime)
            [(10, aTxt); (10, bTxt)]) as Hgaps.
  { do 2 (constructor; [unfold debounceTime; simpl; lia |]). constructor. }
  split; [apply ready_reachable |]. split; [exact Hgaps |].
  apply (PreviewFacts.debounce_one_rebuild relativeTo ready app aTxt
           [(10, aTxt); (10, bTxt)] ready_reachable Hgaps).
Defined.

Lemma rebuilds_run_side_by_side_witness :
  is_Some (previewServers typedReady !! "ts")
  ∧ typescript (p_config tsApp) = true
  ∧ List.length (inFlight "ts" (rebuildProject tsApp "manual" typedReady))
    = S (List.length (inFlight "ts" typedReady)).
Proof.
  assert (is_Some (previewServers typedReady !! p_id tsApp)) as Hentry.
  { vm_compute. eauto. }
  split; [exact Hentry |]. split; [reflexivity |].
  apply (PreviewFacts.rebuilds_run_side_by_side typedReady tsApp "manual"
           Hentry eq_refl).
Defined.

Lemma preview_never_asks_permission_witness :
  "/etc" ∈ SecuritySandbox.blockedPaths sandbox
  ∧ startsWith (resolved "/etc/nginx") "/etc" = true
  ∧ (SecuritySandbox.checkFilePermission resolved noStat "/etc/nginx" "read" sandbox).1
    = false.
Proof.
  assert ("/etc" ∈ SecuritySandbox.blockedPaths sandbox) as Hin.
  { vm_compute. by left. }
  split; [exact Hin |]. split; [reflexivity |].
  destruct (PermissionFacts.preview_never_asks_permission resolved noStat
              toyStatic toyMounted toyJoin sandbox initial etcApp 4000
              {| ProjectServer.req_method := ProjectServer.GET;
                 ProjectServer.req_path := "/" |}
              "/etc/nginx" "read") as (_ & _ & _ & Hblocked & _).
  exact (Hblocked "/etc" Hin eq_refl).
Defined.

Lemma setupProject_opens_new_server_witness :
  reachable relativeTo ready
  ∧ size (httpServers (setupProject app 4001 ready)) = S (size (httpServers ready)).
Proof.
  split; [apply ready_reachable |].
  apply (PreviewFacts.setupProject_opens_new_server relativeTo ready app 4001
           ready_reachable).
Defined.


Lemma compile_failure_is_swallowed_witness :
  List.find (λ job, Nat.eqb (j_id job) 3)
    (jobs (rebuildProject tsApp "manual" typedReady))
  = Some {| j_id := 3; j_project := tsApp; j_trigger := "manual" |}
  ∧ jobs (compileDone 3 (Some "error TS2304")
            (rebuildProject tsApp "manual" typedReady)) = [].
Proof.
  split; [reflexivity |].
  etrans;
    [ apply (PreviewFacts.compile_failure_is_swallowed
               (rebuildProject tsApp "manual" typedReady) 3
               {| j_id := 3; j_project := tsApp; j_trigger := "manual" |}
               (Some "error TS2304") eq_refl)
    | reflexivity ].
Defined.


Lemma channel_isolation_witness :
  reachable relativeTo catalogue
  ∧ sockets catalogue !! 2
    = Some {| ws_readyState := OPEN; ws_project := None;
              ws_inbox := [MProjectsList [("app", "App", "/projects/app", "ready")]] |}
  ∧ ∃ projects,
      [MProjectsList [("app", "App", "/projects/app", "ready")]]
      = [MProjectsList projects].
Proof.
  assert (reachable relativeTo catalogue) as Hr.
  { by exists [ISetupProject app 4000; IWsConnect None]. }
  split; [exact Hr |]. split; [reflexivity |].
  apply (PreviewFacts.channel_isolation relativeTo catalogue 2
           {| ws_readyState := OPEN; ws_project := None;
              ws_inbox := [MProjectsList [("app", "App", "/projects/app", "ready")]] |}
           Hr eq_refl).
Defined.

Lemma ignored_by_substring_witness :
  watchers ready !! 1 = Some {| w_project := app; w_open := true |}
  ∧ "dist" ∈ markers
  ∧ includes (replace_backslashes "/tmp/p/src/distance.js") "dist" = true
  ∧ step relativeTo ready (IFsEvent 1 "/tmp/p/src/distance.js" modified) = ready.
Proof.
  assert ("dist" ∈ markers) as Hin by (unfold markers; set_solver).
  split; [reflexivity |]. split; [exact Hin |]. split; [reflexivity |].
  apply (proj1 (PreviewFacts.ignored_by_substring relativeTo ready 1
                  {| w_project := app; w_open := true |}
                  "/tmp/p/src/distance.js" modified eq_refl eq_refl)
           "dist" Hin eq_refl).
Defined.


End ScenarioFacts.

(** * Further properties *)

(** ** The security sandbox *)

Module SandboxOpsFacts.
Import JsString JsStringFacts SecuritySandbox SandboxOps SandboxFacts.

(** *** Strings *)

Lemma append_assoc (a b c : string) : (a +:+ b) +:+ c = a +:+ b +:+ c.
Proof. induction a as [|x a IH]; [done|]. by rewrite !append_cons, IH. Qed.

Lemma append_empty_r (a : string) : a +:+ EmptyString = a.
Proof. induction a as [|x a IH]; [done|]. by rewrite append_cons, IH. Qed.

Lemma includes_context (pre s post pat : string) :
  includes s pat = true → includes (pre +:+ s +:+ post) pat = true.
Proof.
  rewrite !includes_spec. intros (a & b & ->).
  exists (pre +:+ a), (b +:+ post). by rewrite !append_assoc.
Qed.

Lemma startsWith_trans (a b c : string) :
  startsWith a b = true → startsWith b c = true → startsWith a c = true.
Proof.
  rewrite !startsWith_app. intros [x ->] [y ->]. exists (y +:+ x).
  by rewrite append_assoc.
Qed.

(** *** The event log *)

(** X1. [logSecurityEvent] keeps a bounded log: after any call the log holds
    at most 1000 events and the event just logged is the last one.  Below
    the bound the event is appended; at the bound the oldest event is
    dropped to make room. *)
Theorem securityEvents_capped (e : SecurityEvent) (sb : Sandbox) :
  List.length (securityEvents (logSecurityEvent e sb)) ≤ 1000
  ∧ last (securityEvents (logSecurityEvent e sb)) = Some e
  ∧ (List.length (securityEvents sb) < 1000 →
     securityEvents (logSecurityEvent e sb) = securityEvents sb ++ [e])
  ∧ (List.length (securityEvents sb) = 1000 →
     securityEvents (logSecurityEvent e sb) = drop 1 (securityEvents sb) ++ [e]).
Proof.
  unfold logSecurityEvent. cbn [securityEvents].
  set (old := securityEvents sb). rewrite length_app. cbn [List.length].
  repeat split.
  - case_decide; [rewrite length_drop, length_app; cbn [List.length]; lia | rewrite length_app; cbn [List.length]; lia].
  - case_decide; [|by rewrite last_snoc].
    rewrite drop_app_le by lia. by rewrite last_snoc.
  - intros Hlt. by rewrite decide_False by lia.
  - intros Heq. rewrite decide_True by lia.
    rewrite drop_app_le by lia. do 2 f_equal. lia.
Qed.

(** X2. [getSecurityEvents(limit)] returns a suffix of the log: the last
    [limit] events for a positive limit.  A limit of zero returns the whole
    log ([slice(-0)] is [slice(0)]), and a negative limit [-k] drops the
    first [k] events. *)
Theorem getSecurityEvents_slice (limit : Z) (sb : Sandbox) :
  getSecurityEvents limit sb `suffix_of` securityEvents sb
  ∧ ((0 < limit)%Z →
     getSecurityEvents limit sb
     = drop (List.length (securityEvents sb) - Z.to_nat limit) (securityEvents sb))
  ∧ (limit = 0%Z → getSecurityEvents limit sb = securityEvents sb)
  ∧ ((limit < 0)%Z →
     getSecurityEvents limit sb = drop (Z.to_nat (- limit)) (securityEvents sb)).
Proof.
  unfold getSecurityEvents, sliceFrom. cbv zeta.
  set (l := securityEvents sb). repeat split.
  - apply suffix_drop.
  - intros Hpos. rewrite (proj2 (Z.ltb_lt _ _)) by lia. f_equal. lia.
  - intros ->. simpl. by rewrite Z.min_l by lia.
  - intros Hneg. rewrite (proj2 (Z.ltb_ge _ _)) by lia.
    destruct (decide (- limit ≤ Z.of_nat (List.length l))%Z).
    + by rewrite Z.min_l by lia.
    + rewrite Z.min_r by lia. rewrite Nat2Z.id.
      rewrite !drop_ge; [done | lia | lia].
Qed.

(** *** The file permission check *)

Section WithFs.

Variable path_resolve : string → string.
Variable statSize : string → option N.

Local Abbreviation checkFilePermission :=
  (SecuritySandbox.checkFilePermission path_resolve statSize).
Local Abbreviation addAllowedPath := (SandboxOps.addAllowedPath path_resolve).

Lemma existsb_true_intro {A} (f : A → bool) (l : list A) (x : A) :
  x ∈ l → f x = true → existsb f l = true.
Proof. intros Hin Hf. apply existsb_exists. exists x. by rewrite <- list_elem_of_In. Qed.

Lemma existsb_false_intro {A} (f : A → bool) (l : list A) :
  (∀ x, x ∈ l → f x = false) → existsb f l = false.
Proof.
  intros Hall. apply not_true_is_false. intros (x & Hin & Hf)%existsb_exists.
  apply list_elem_of_In in Hin. rewrite Hall in Hf; done.
Qed.

(** The rule sets of [setupSecurityRules], spelled out. *)
Lemma setupSecurityRules_blocked win32 workspacePath cwd nodeModules :
  blockedPaths (setupSecurityRules win32 workspacePath cwd nodeModules)
  = [ "/etc"; "/usr/bin"; "/usr/sbin"; "/bin"; "/sbin"; "/var/log"; "/var/run";
      "/root"; "/home" ]
    ++ (if win32 then [ "C:\Windows"; "C:\Program Files"; "C:\Program Files (x86)" ]
        else [ "/usr"; "/opt" ]).
Proof. by destruct win32. Qed.

Lemma setupSecurityRules_allows_tmp win32 workspacePath cwd nodeModules :
  "/tmp" ∈ allowedPaths (setupSecurityRules win32 workspacePath cwd nodeModules).
Proof.
  unfold setupSecurityRules. cbn [allowedPaths foldl].
  unfold setAddString at 4. rewrite decide_False by apply not_elem_of_nil.
  set (l1 := [] ++ [workspacePath]).
  assert (∀ x (l : list string), "/tmp" ∈ l → "/tmp" ∈ setAddString x l) as Hkeep.
  { intros x l Hin. unfold setAddString. case_decide; [done|]. apply elem_of_app. by left. }
  apply Hkeep, Hkeep. unfold setAddString. case_decide; [done|].
  apply elem_of_app. right. by left.
Qed.

(** X3. The rules of [setupSecurityRules] block [/home] and [/root] and
    allow the workspace.  The blocked paths are tested first, so when the
    workspace lies under [/home] or [/root] (where [createWorkspace] puts
    it, under the home directory) every path below the workspace is denied,
    for every operation, although the workspace is an allowed path. *)
Theorem workspace_under_blocked_path_is_denied (win32 : bool)
    (workspacePath cwd nodeModules filePath operation : string) :
  startsWith workspacePath "/home" = true ∨ startsWith workspacePath "/root" = true →
  startsWith (path_resolve filePath) workspacePath = true →
  workspacePath
    ∈ allowedPaths (setupSecurityRules win32 workspacePath cwd nodeModules)
  ∧ (checkFilePermission filePath operation
       (setupSecurityRules win32 workspacePath cwd nodeModules)).1 = false.
Proof.
  intros Hws Hunder. split.
  - unfold setupSecurityRules. cbn [allowedPaths foldl].
    assert (∀ x (l : list string), workspacePath ∈ l → workspacePath ∈ setAddString x l)
      as Hkeep.
    { intros x l Hin. unfold setAddString. case_decide; [done|]. apply elem_of_app. by left. }
    do 3 apply Hkeep. unfold setAddString.
    rewrite decide_False by apply not_elem_of_nil. by left.
  - destruct Hws as [Hws | Hws].
    + apply (checkFilePermission_blocked _ _ _ _ _ "/home");
        [|by eapply startsWith_trans].
      rewrite setupSecurityRules_blocked. apply elem_of_app. left. do 8 right. by left.
    + apply (checkFilePermission_blocked _ _ _ _ _ "/root");
        [|by eapply startsWith_trans].
      rewrite setupSecurityRules_blocked. apply elem_of_app. left. do 7 right. by left.
Qed.

(** X4. [startsWith] compares characters, not path segments: after
    [setupSecurityRules], on either platform, every path whose resolved form
    begins with the characters [/tmp] (so also [/tmpfiles/...]) is granted
    for every operation other than [write]. *)
Theorem tmp_prefix_is_granted (win32 : bool)
    (workspacePath cwd nodeModules filePath operation : string) :
  startsWith (path_resolve filePath) "/tmp" = true → operation ≠ "write" →
  (checkFilePermission filePath operation
     (setupSecurityRules win32 workspacePath cwd nodeModules)).1 = true.
Proof.
  intros Htmp Hop. unfold SecuritySandbox.checkFilePermission. cbv zeta.
  apply startsWith_app in Htmp as [rest Hrest]. rewrite Hrest.
  rewrite existsb_false_intro.
  2: { intros b. rewrite setupSecurityRules_blocked.
       destruct win32; rewrite !elem_of_app, !elem_of_cons, !elem_of_nil;
         intros Hb; repeat (destruct Hb as [Hb|Hb]; subst; try done). }
  rewrite (existsb_true_intro _ _ "/tmp"); [| apply setupSecurityRules_allows_tmp | done].
  simpl. by rewrite bool_decide_eq_false_2.
Qed.

(** X5. The operation matters to [checkFilePermission] only as [write] or
    not: every other operation string gets the decision of [read], and
    [write] gets that decision together with the size test, which passes
    when the file does not exist or is no larger than [maxFileSize]. *)
Theorem only_write_looks_at_size (filePath operation : string) (sb : Sandbox) :
  (operation ≠ "write" →
   (checkFilePermission filePath operation sb).1
   = (checkFilePermission filePath "read" sb).1)
  ∧ (checkFilePermission filePath "write" sb).1
    = (checkFilePermission filePath "read" sb).1
      && match statSize (path_resolve filePath) with
         | Some size => bool_decide (size ≤ maxFileSize sb)%N
         | None => true
         end.
Proof.
  unfold SecuritySandbox.checkFilePermission. cbv zeta. split.
  - intros Hop. rewrite (bool_decide_eq_false_2 (operation = "write")) by done.
    repeat case_match; done.
  - destruct (existsb _ (blockedPaths sb)); [done|].
    destruct (existsb _ (allowedPaths sb)); [|done]. simpl.
    destruct (statSize (path_resolve filePath)) as [size|]; [|done].
    case_decide; simpl; symmetry; [apply bool_decide_eq_false_2 | apply bool_decide_eq_true_2]; lia.
Qed.

(** X6. [addAllowedPath] leaves the blocked paths alone and only widens:
    what was granted stays granted, what lies under a blocked path stays
    denied also below the path added, and a path under the added one that
    no blocked path covers is granted for every operation but [write]. *)
Theorem addAllowedPath_grants_below (pathToAdd filePath operation : string)
    (sb : Sandbox) :
  blockedPaths (addAllowedPath pathToAdd sb) = blockedPaths sb
  ∧ ((checkFilePermission filePath operation sb).1 = true →
     (checkFilePermission filePath operation (addAllowedPath pathToAdd sb)).1 = true)
  ∧ (existsb (λ b, startsWith (path_resolve filePath) b) (blockedPaths sb) = true →
     (checkFilePermission filePath operation (addAllowedPath pathToAdd sb)).1 = false)
  ∧ (existsb (λ b, startsWith (path_resolve filePath) b) (blockedPaths sb) = false →
     startsWith (path_resolve filePath) (path_resolve pathToAdd) = true →
     operation ≠ "write" →
     (checkFilePermission filePath operation (addAllowedPath pathToAdd sb)).1 = true).
Proof.
  assert (∀ a, a ∈ allowedPaths sb → a ∈ allowedPaths (addAllowedPath pathToAdd sb)) as Hkeep.
  { intros a Hin. unfold SandboxOps.addAllowedPath, setAddString. cbn [allowedPaths].
    case_decide; [done|]. apply elem_of_app. by left. }
  assert (path_resolve pathToAdd ∈ allowedPaths (addAllowedPath pathToAdd sb)) as Hnew.
  { unfold SandboxOps.addAllowedPath, setAddString. cbn [allowedPaths].
    case_decide; [done|]. apply elem_of_app. right. by left. }
  unfold SecuritySandbox.checkFilePermission. cbv zeta.
  change (blockedPaths (addAllowedPath pathToAdd sb)) with (blockedPaths sb).
  change (maxFileSize (addAllowedPath pathToAdd sb)) with (maxFileSize sb).
  split; [done|]. split; [|split].
  - destruct (existsb _ (blockedPaths sb)); [done|].
    destruct (existsb _ (allowedPaths sb)) eqn:Ea; [|done].
    apply existsb_exists in Ea as (a & Ha & Hs). apply list_elem_of_In in Ha.
    rewrite (existsb_true_intro _ _ a) by auto. simpl.
    repeat case_match; done.
  - by intros ->.
  - intros -> Hunder Hop. rewrite (existsb_true_intro _ _ (path_resolve pathToAdd)) by done.
    simpl. by rewrite bool_decide_eq_false_2.
Qed.

End WithFs.

(** *** The process check *)

Lemma joinSpace_cons (a : string) (rest : list string) :
  ∃ post, joinSpace (a :: rest) = a +:+ post.
Proof.
  destruct rest as [|b rest]; [exists EmptyString; by rewrite append_empty_r|].
  by eexists.
Qed.

Lemma joinSpace_app (args more : list string) :
  ∃ post, joinSpace (args ++ more) = joinSpace args +:+ post.
Proof.
  induction args as [|a args IH]; [by exists (joinSpace more)|].
  destruct args as [|b args].
  - apply joinSpace_cons.
  - destruct IH as [post IH]. exists post.
    change (joinSpace ((a :: b :: args) ++ more))
      with (a +:+ " " +:+ joinSpace ((b :: args) ++ more)).
    rewrite IH. change (joinSpace (a :: b :: args)) with (a +:+ " " +:+ joinSpace (b :: args)).
    by rewrite !append_assoc.
Qed.

Lemma joinSpace_elem (a : string) (args : list string) :
  a ∈ args → ∃ pre post, joinSpace args = pre +:+ a +:+ post.
Proof.
  induction args as [|b args IH]; [by intros ?%elem_of_nil|].
  intros [->|Hin]%elem_of_cons.
  - exists EmptyString. apply joinSpace_cons.
  - destruct (IH Hin) as (pre & post & Hj). destruct args as [|c args]; [by apply elem_of_nil in Hin|].
    exists (b +:+ " " +:+ pre), post.
    change (joinSpace (b :: c :: args)) with (b +:+ " " +:+ joinSpace (c :: args)).
    by rewrite Hj, !append_assoc.
Qed.

Lemma checkProcessPermission_false (command : string) (args : list string) :
  checkProcessPermission command args = false
  ↔ ∃ d, d ∈ dangerousCommands ∧ includes (commandString command args) d = true.
Proof.
  unfold checkProcessPermission. rewrite negb_false_iff, existsb_exists.
  by setoid_rewrite list_elem_of_In.
Qed.

(** X7. [checkProcessPermission] looks for the dangerous words anywhere in
    the command line: a command line that is denied stays denied with
    further arguments, and since [su] is one of the words, a command or an
    argument that merely contains the letters [su] is denied. *)
Theorem process_check_is_by_substring (command : string) (args more : list string) :
  (checkProcessPermission command args = false →
   checkProcessPermission command (args ++ more) = false)
  ∧ (includes command "su" = true → checkProcessPermission command args = false)
  ∧ (∀ a, a ∈ args → includes a "su" = true →
          checkProcessPermission command args = false).
Proof.
  assert ("su" ∈ dangerousCommands) as Hsu.
  { unfold dangerousCommands. do 4 right. by left. }
  split; [|split].
  - rewrite !checkProcessPermission_false. intros (d & Hd & Hinc).
    exists d. split; [done|]. unfold commandString in *.
    destruct (joinSpace_app args more) as [post ->].
    replace (command +:+ " " +:+ joinSpace args +:+ post)
      with (EmptyString +:+ (command +:+ " " +:+ joinSpace args) +:+ post)
      by (by rewrite append_nil, !append_assoc).
    by apply includes_context.
  - intros Hinc. apply checkProcessPermission_false. exists "su". split; [done|].
    unfold commandString.
    rewrite <- (append_nil (command +:+ " " +:+ joinSpace args)).
    by apply includes_context.
  - intros a Hin Hinc. apply checkProcessPermission_false. exists "su". split; [done|].
    unfold commandString. destruct (joinSpace_elem a args Hin) as (pre & post & ->).
    replace (command +:+ " " +:+ pre +:+ a +:+ post)
      with ((command +:+ " " +:+ pre) +:+ a +:+ post)
      by (by rewrite !append_assoc).
    by apply includes_context.
Qed.

End SandboxOpsFacts.


(** ** The preview system, continued *)

Module PreviewMoreFacts.
Import JsString JsStringFacts LivePreview Observe IgnoreFacts PreviewFacts
  PreviewInvariants SandboxOpsFacts PermissionFacts.

#[local] Arguments startPreview : simpl never.
#[local] Arguments setupProject : simpl never.
#[local] Arguments rebuildProject : simpl never.
#[local] Arguments compileDone : simpl never.
#[local] Arguments LivePreview.handleFileChange : simpl never.
#[local] Arguments handleWebSocketConnection : simpl never.
#[local] Arguments socketClosed : simpl never.
#[local] Arguments stopPreview : simpl never.
#[local] Arguments dispose : simpl never.
#[local] Arguments broadcastGlobal : simpl never.
#[local] Arguments broadcastToProject : simpl never.
#[local] Arguments LivePreview.fsEvent : simpl never.
#[local] Arguments watcherError : simpl never.
#[local] Arguments advance : simpl never.
#[local] Arguments fire : simpl never.

(** *** Ignored paths *)

Lemma replace_backslashes_app (a b : string) :
  replace_backslashes (a +:+ b) = replace_backslashes a +:+ replace_backslashes b.
Proof. induction a as [|c a IH]; [done|]. rewrite append_cons. simpl. by rewrite IH. Qed.

Lemma replace_backslashes_idemp (a : string) :
  replace_backslashes (replace_backslashes a) = replace_backslashes a.
Proof.
  induction a as [|c a IH]; [done|]. simpl. rewrite IH. f_equal.
  destruct (Ascii.eqb_spec c backslash) as [->|Hne]; [done|].
  by rewrite (proj2 (Ascii.eqb_neq _ _) Hne).
Qed.

Lemma shouldIgnoreFile_true (filePath : string) :
  shouldIgnoreFile filePath = true
  ↔ ∃ pat, pat ∈ exclude ++ markers
           ∧ includes (replace_backslashes filePath) pat = true.
Proof.
  unfold shouldIgnoreFile. cbv zeta. split.
  - destruct (existsb _ exclude) eqn:E.
    { apply existsb_exists in E as (pat & Hin & Hinc). intros _. exists pat.
      split; [apply elem_of_app; left; by apply list_elem_of_In | done]. }
    intros H. unfold markers.
    repeat match type of H with
    | (if ?c then _ else _) = true =>
        let Ec := fresh "Ec" in destruct c eqn:Ec
    end; try done.
    all: repeat match goal with
           | Hor : _ || _ = true |- _ => apply orb_true_iff in Hor as [Hor|Hor]
           end.
    all: match goal with
         | Hm : includes _ ?m = true |- _ =>
             exists m; split; [apply elem_of_app; right; set_solver | exact Hm]
         end.
  - intros (pat & [Hin|Hin]%elem_of_app & Hinc).
    + rewrite (existsb_true_intro _ _ pat); done.
    + by eapply shouldIgnoreFile_marker.
Qed.

(** X8. Being ignored is a matter of substrings: a path that
    [shouldIgnoreFile] ignores is ignored wherever it occurs inside a longer
    path, and also after its backslashes have been replaced by slashes. *)
Theorem ignored_inside_any_path (pre filePath post : string) :
  shouldIgnoreFile filePath = true →
  shouldIgnoreFile (pre +:+ filePath +:+ post) = true
  ∧ shouldIgnoreFile (replace_backslashes filePath) = true.
Proof.
  rewrite !shouldIgnoreFile_true. intros (pat & Hin & Hinc). split.
  - exists pat. split; [done|]. rewrite !replace_backslashes_app.
    by apply includes_context.
  - exists pat. split; [done|]. by rewrite replace_backslashes_idemp.
Qed.


(** *** Sending to a set *)

Lemma sendAll_lookup_notin cs m socks ws :
  ws ∉ cs → sendAll cs m socks !! ws = socks !! ws.
Proof.
  unfold sendAll. revert socks. induction cs as [|c cs IH]; intros socks Hn; simpl; [done|].
  apply not_elem_of_cons in Hn as [Hne Hn]. rewrite IH by done.
  by rewrite lookup_alter_ne.
Qed.

Lemma sendAll_lookup cs m socks ws :
  NoDup cs →
  sendAll cs m socks !! ws
  = if decide (ws ∈ cs) then deliver m <$> socks !! ws else socks !! ws.
Proof.
  intros Hnd. case_decide as Hin; [|by apply sendAll_lookup_notin].
  revert socks Hin. induction Hnd as [|c cs Hc Hnd IH]; intros socks Hin;
    [by apply elem_of_nil in Hin|].
  change (sendAll (c :: cs) m socks) with (sendAll cs m (alter (deliver m) c socks)).
  apply elem_of_cons in Hin as [->|Hin].
  - rewrite sendAll_lookup_notin by done. by rewrite lookup_alter_eq.
  - rewrite IH by done. rewrite lookup_alter_ne; [done|]. by intros ->.
Qed.

Lemma sendGlobal_lookup_notin L m socks ws :
  (∀ cs, cs ∈ L → ws ∉ cs) →
  foldl (λ acc cs, sendAll cs m acc) socks L !! ws = socks !! ws.
Proof.
  revert socks. induction L as [|cs L IH]; intros socks Hn; simpl; [done|].
  rewrite IH by (intros cs' ?; apply Hn; by right).
  apply sendAll_lookup_notin, Hn. by left.
Qed.

Lemma inbox_closeAll cs socks ws :
  ws_inbox <$> closeAll cs socks !! ws = ws_inbox <$> socks !! ws.
Proof.
  rewrite closeAll_lookup. case_decide; [|done].
  destruct (socks !! ws) as [sock|]; simpl; [|done].
  unfold closeSocket. by destruct (ws_readyState sock).
Qed.

Lemma inbox_closeGlobal L socks ws :
  ws_inbox <$> foldl (λ acc cs, closeAll cs acc) socks L !! ws = ws_inbox <$> socks !! ws.
Proof.
  revert socks. induction L as [|cs L IH]; intros socks; simpl; [done|].
  by rewrite IH, inbox_closeAll.
Qed.

Section WithPath.

Variable path_relative : string → string → string.

Local Abbreviation handleFileChange := (LivePreview.handleFileChange path_relative).
Local Abbreviation fsEvent := (LivePreview.fsEvent path_relative).
Local Abbreviation step := (LivePreview.step path_relative).
Local Abbreviation run := (LivePreview.run path_relative).
Local Abbreviation reachable := (LivePreview.reachable path_relative).

(** *** The registry and the servers *)

Lemma previewServers_advance ms s : previewServers (advance ms s) = previewServers s.
Proof.
  apply (advance_frame previewServers); try (by intros ? []).
  intros p trigger []. unfold rebuildProject. by crush_ops.
Qed.

Lemma staticRoutes_advance ms s : staticRoutes (advance ms s) = staticRoutes s.
Proof.
  apply (advance_frame staticRoutes); try (by intros ? []).
  intros p trigger []. unfold rebuildProject. by crush_ops.
Qed.

(** Only a set-up writes to the registry, the server table and the routes. *)
Lemma registry_step s i :
  match i with
  | ISetupProject p port | IStartPreview p port =>
      previewServers (step s i) = <[p_id p := entryOf p port s]> (previewServers s)
      ∧ httpServers (step s i) = <[nextHandle s := serverOf p port]> (httpServers s)
      ∧ staticRoutes (step s i) = staticRoutes s ++ [(projectUrlOf p, p_path p)]
  | _ =>
      previewServers (step s i) = previewServers s
      ∧ httpServers (step s i) = httpServers s
      ∧ staticRoutes (step s i) = staticRoutes s
  end.
Proof.
  destruct i; cbn [LivePreview.step];
    rewrite ?previewServers_advance, ?httpServers_advance, ?staticRoutes_advance;
    try done.
  all: destruct s; unfold LivePreview.fsEvent, dispose, rebuildProject, entryOf, serverOf;
    crush_ops; rewrite ?delete_id by done; try done.
Qed.


Lemma RegistryOk_step s i :
  HandlesFresh s → RegistryOk s → RegistryOk (step s i).
Proof.
  intros [Hh _] [He Hl]. pose proof (registry_step s i) as Hr.
  assert (∀ pid info, EntryOk s pid info →
            httpServers (step s i) !! sb_server (si_server info)
            = httpServers s !! sb_server (si_server info)) as Hkeep.
  { intros pid info (_ & _ & _ & _ & Hsrv).
    destruct i; destruct Hr as (_ & -> & _); try done.
    all: rewrite lookup_insert_ne; [done|]; intros Heq;
      specialize (Hh (sb_server (si_server info)) (mk_is_Some _ _ Hsrv)); lia. }
  split.
  - intros pid info Hin.
    assert (EntryOk s pid info → EntryOk (step s i) pid info) as Hold.
    { intros Hok. pose proof (Hkeep _ _ Hok) as Hk.
      destruct Hok as (? & ? & ? & ? & Hsrv). repeat split; try done.
      by rewrite Hk. }
    destruct i; destruct Hr as (Hp & Hs & _); rewrite Hp in Hin; eauto.
    all: apply lookup_insert_Some in Hin as [[<- <-]|[_ Hin]]; eauto.
    all: repeat split; try done; rewrite Hs; simpl; by rewrite lookup_insert_eq.
  - intros h srv Hin.
    destruct i; destruct Hr as (_ & Hs & _); rewrite Hs in Hin; eauto.
    all: apply lookup_insert_Some in Hin as [[_ <-]|[_ Hin]]; eauto.
Qed.

Lemma RegistryOk_reachable s : reachable s → RegistryOk s ∧ HandlesFresh s.
Proof.
  intros Hr. split; [|by eapply HandlesFresh_reachable].
  revert s Hr.
  assert (∀ s, reachable s → HandlesFresh s ∧ RegistryOk s) as H.
  { apply reachable_ind.
    - split; [split; intros h; simpl; rewrite lookup_empty; by intros [? ?]|].
      split; intros ??; simpl; by rewrite lookup_empty.
    - intros s i [Hf Hok]. split; [by apply HandlesFresh_step | by apply RegistryOk_step]. }
  intros s Hr. by apply H.
Qed.

(** X9. In every reachable state an entry of [previewServers] is stored
    under the id of its project, has the url [/projects/<id>] and the status
    [ready] (no other status is ever written), carries the port of its
    server binding, and that binding names a server that is listening on
    that port for that project. *)
Theorem registry_entry_shape (s : State) (pid : string) (info : ServerInfo) :
  reachable s → previewServers s !! pid = Some info →
  p_id (si_project info) = pid
  ∧ si_url info = "/projects/" +:+ pid
  ∧ si_status info = "ready"
  ∧ si_port info = sb_port (si_server info)
  ∧ httpServers s !! sb_server (si_server info)
    = Some {| hs_project := si_project info; hs_port := si_port info;
              hs_listening := true |}.
Proof.
  intros Hr Hin. destruct (RegistryOk_reachable s Hr) as [[He _] _].
  exact (He pid info Hin).
Qed.

Lemma httpServers_step s i h srv :
  HandlesFresh s → httpServers s !! h = Some srv → httpServers (step s i) !! h = Some srv.
Proof.
  intros [Hh _] Hin. pose proof (registry_step s i) as Hr.
  destruct i; destruct Hr as (_ & -> & _); try done.
  all: rewrite lookup_insert_ne; [done|]; intros <-;
    specialize (Hh _ (mk_is_Some _ _ Hin)); lia.
Qed.

(** X10. No project server is ever closed: in every reachable state every
    server is listening, and whatever happens next, [stopPreview] and
    [dispose] included, it is still there unchanged; the number of servers
    never goes down. *)
Theorem servers_are_never_closed (s : State) (inputs : list Input) (h : nat)
    (srv : HttpServer) :
  reachable s → httpServers s !! h = Some srv →
  hs_listening srv = true
  ∧ httpServers (run s inputs) !! h = Some srv
  ∧ size (httpServers s) ≤ size (httpServers (run s inputs)).
Proof.
  intros Hr Hin. destruct (RegistryOk_reachable s Hr) as [[_ Hl] Hf].
  split; [by eapply Hl|].
  clear Hr Hl. revert s Hf Hin. induction inputs as [|i inputs IH]; intros s Hf Hin; simpl; [done|].
  destruct (IH (step s i)) as [IH1 IH2];
    [by apply HandlesFresh_step | by apply httpServers_step |].
  split; [done|]. etrans; [|exact IH2].
  pose proof (registry_step s i) as Hr. destruct Hf as [Hh _].
  destruct i; destruct Hr as (_ & -> & _); try done.
  all: rewrite map_size_insert_None; [lia|];
    destruct (httpServers s !! nextHandle s) eqn:E; [|done];
    specialize (Hh _ (mk_is_Some _ _ E)); lia.
Qed.

(** X11. [staticRoutes] only grows: over any inputs the routes before are
    a prefix of the routes after, each [startPreview] appends one route
    [/projects/<id>] for the project path (also for an id that has one), and
    neither [stopPreview] nor [dispose] removes a route. *)
Theorem static_routes_are_never_removed (s : State) (inputs : list Input) :
  staticRoutes s `prefix_of` staticRoutes (run s inputs)
  ∧ (∀ p port, staticRoutes (step s (IStartPreview p port))
               = staticRoutes s ++ [("/projects/" +:+ p_id p, p_path p)])
  ∧ (∀ pid, staticRoutes (stopPreview pid s).1 = staticRoutes s)
  ∧ staticRoutes (dispose s).1 = staticRoutes s.
Proof.
  split; [|split; [|split]].
  - revert s. induction inputs as [|i inputs IH]; intros s; simpl; [done|].
    etrans; [|apply IH]. pose proof (registry_step s i) as Hr.
    destruct i; destruct Hr as (_ & _ & ->); try done; by apply prefix_app_r.
  - intros p port. by destruct (registry_step s (IStartPreview p port)) as (_ & _ & ->).
  - intros pid. exact (proj2 (proj2 (registry_step s (IStopPreview pid)))).
  - exact (proj2 (proj2 (registry_step s IDispose))).
Qed.

Lemma previewServers_run s inputs pid :
  is_Some (previewServers s !! pid) → is_Some (previewServers (run s inputs) !! pid).
Proof.
  revert s. induction inputs as [|i inputs IH]; intros s Hin; simpl; [done|].
  apply IH. pose proof (registry_step s i) as Hr.
  destruct i; destruct Hr as (-> & _); try done.
  all: rewrite lookup_insert; case_decide; [by eexists | done].
Qed.

Lemma dispose_throws s :
  previewServers s ≠ ∅ → dispose s = ((dispose s).1, Thrown closeError).
Proof.
  intros Hne. destruct s. unfold dispose. simpl in *. by rewrite decide_False.
Qed.

(** X12. Once a project id has an entry in [previewServers], it has one
    for good: after any further inputs the entry is there, [stopPreview] for
    the id throws and [dispose] throws (both on the missing [close] method
    of the server binding), and neither removes anything from
    [previewServers]. *)
Theorem set_up_project_is_never_released (s : State) (inputs : list Input)
    (pid : string) :
  is_Some (previewServers s !! pid) →
  let s' := run s inputs in
  is_Some (previewServers s' !! pid)
  ∧ (stopPreview pid s').2 = Thrown closeError
  ∧ previewServers (stopPreview pid s').1 = previewServers s'
  ∧ (dispose s').2 = Thrown closeError
  ∧ previewServers (dispose s').1 = previewServers s'.
Proof.
  intros Hin s'. pose proof (previewServers_run s inputs pid Hin) as [info Hs'].
  fold s' in Hs'. split; [by eexists|].
  destruct (stopPreview_throws s' pid info Hs') as (Ht & _ & _).
  split; [exact Ht|].
  split; [exact (proj1 (registry_step s' (IStopPreview pid)))|].
  split; [|exact (proj1 (registry_step s' IDispose))].
  rewrite dispose_throws; [done|]. intros Hem. by rewrite Hem, lookup_empty in Hs'.
Qed.

End WithPath.

End PreviewMoreFacts.

Module ViewerFacts.
Import JsString JsStringFacts LivePreview Observe IgnoreFacts PreviewFacts
  PreviewInvariants SandboxOpsFacts PermissionFacts PreviewMoreFacts.
#[local] Arguments startPreview : simpl never.
#[local] Arguments setupProject : simpl never.
#[local] Arguments rebuildProject : simpl never.
#[local] Arguments compileDone : simpl never.
#[local] Arguments LivePreview.handleFileChange : simpl never.
#[local] Arguments handleWebSocketConnection : simpl never.
#[local] Arguments socketClosed : simpl never.
#[local] Arguments stopPreview : simpl never.
#[local] Arguments dispose : simpl never.
#[local] Arguments broadcastGlobal : simpl never.
#[local] Arguments broadcastToProject : simpl never.
#[local] Arguments LivePreview.fsEvent : simpl never.
#[local] Arguments watcherError : simpl never.
#[local] Arguments advance : simpl never.
#[local] Arguments fire : simpl never.

(** *** Sockets that sit in no set *)

Lemma Absent_insert_nil ws c k : Absent ws c → Absent ws (<[k := []]> c).
Proof.
  intros Ha pid cs. rewrite lookup_insert. case_decide; [|apply Ha].
  intros [= <-]. apply not_elem_of_nil.
Qed.

Lemma Absent_delete ws c k : Absent ws c → Absent ws (delete k c).
Proof.
  intros Ha pid cs. rewrite lookup_delete. case_decide; [done|apply Ha].
Qed.

Lemma Absent_setAdd ws c k n : Absent ws c → ws ≠ n → Absent ws (alter (setAdd n) k c).
Proof.
  intros Ha Hne pid cs. rewrite lookup_alter. case_decide; [|apply Ha]. subst.
  destruct (c !! pid) as [cs0|] eqn:E; simpl; [|done]. intros [= <-].
  unfold setAdd. case_decide; [by eapply Ha|].
  rewrite elem_of_app, list_elem_of_singleton. intros [Hin|?]; [|done].
  by eapply Ha.
Qed.

Lemma Absent_setDelete ws c k n : Absent ws c → Absent ws (alter (setDelete n) k c).
Proof.
  intros Ha pid cs. rewrite lookup_alter. case_decide; [|apply Ha]. subst.
  destruct (c !! pid) as [cs0|] eqn:E; simpl; [|done]. intros [= <-].
  unfold setDelete. rewrite list_elem_of_filter. intros [_ Hin]. by eapply Ha.
Qed.

Lemma Absent_empty ws : Absent ws ∅.
Proof. intros pid cs. by rewrite lookup_empty. Qed.

Lemma Absent_sendGlobal ws c m (socks : gmap nat Socket) :
  Absent ws c →
  foldl (λ acc cs, sendAll cs m acc) socks (map_to_list c).*2 !! ws = socks !! ws.
Proof.
  intros Ha. apply sendGlobal_lookup_notin. intros cs.
  rewrite list_elem_of_fmap. intros [[pid cs'] [-> Hin]].
  apply elem_of_map_to_list in Hin. by eapply Ha.
Qed.

Lemma inbox_closed (ws w : nat) (socks : gmap nat Socket) :
  ws_inbox <$> alter closedSocket w socks !! ws = ws_inbox <$> socks !! ws.
Proof.
  rewrite lookup_alter. case_decide; [|done]. subst. by destruct (socks !! ws).
Qed.

Ltac absent :=
  repeat first
    [ assumption
    | apply Absent_insert_nil | apply Absent_delete | apply Absent_setDelete
    | apply Absent_empty
    | apply Absent_setAdd; [|lia] ].

Section WithPath.
Variable path_relative : string → string → string.
Local Abbreviation step := (LivePreview.step path_relative).

Lemma Untracked_rebuildProject p trigger s ws :
  Untracked s ws →
  Untracked (rebuildProject p trigger s) ws
  ∧ inboxOf (rebuildProject p trigger s) ws = inboxOf s ws.
Proof.
  destruct s. unfold Untracked, inboxOf, rebuildProject. crush_ops.
  all: intros [Hlt Hn]; (split; [split; [lia|done]|]).
  all: try done.
  all: rewrite sendAll_lookup_notin; eauto.
Qed.

Lemma Untracked_fires l s ws :
  Untracked s ws →
  Untracked (foldl fire s l) ws ∧ inboxOf (foldl fire s l) ws = inboxOf s ws.
Proof.
  revert s. induction l as [|t l IH]; intros s Hu; simpl; [done|].
  assert (Untracked (fire s t) ws ∧ inboxOf (fire s t) ws = inboxOf s ws) as [Hu' <-].
  { unfold fire.
    destruct (Untracked_rebuildProject (t_project t) "file-change"
                (upd_now (Nat.max (t_deadline t)) s) ws) as [H1 ->]; by destruct s. }
  by apply IH.
Qed.

Lemma Untracked_advance ms s ws :
  Untracked s ws →
  Untracked (advance ms s) ws ∧ inboxOf (advance ms s) ws = inboxOf s ws.
Proof.
  intros Hu. unfold advance. cbv zeta.
  set (due := filter _ (timers s)).
  set (s1 := upd_timers _ s).
  destruct (Untracked_fires due s1 ws) as [H1 H2]; [by destruct s|].
  replace (inboxOf s ws) with (inboxOf s1 ws) by (by destruct s).
  rewrite <- H2. by destruct (foldl fire s1 due).
Qed.

Lemma Untracked_step s i ws :
  Untracked s ws →
  Untracked (step s i) ws ∧ inboxOf (step s i) ws = inboxOf s ws.
Proof.
  destruct i; cbn [LivePreview.step].
  10: apply Untracked_advance.
  all: destruct s; unfold Untracked, inboxOf, LivePreview.fsEvent, dispose, rebuildProject;
    crush_ops.
  all: intros [Hlt Hn]; (split; [split; [lia|absent]|]).
  all: try done.
  all: unfold allConnections; simpl.
  all: rewrite ?Absent_sendGlobal by absent.
  all: rewrite ?inbox_closeAll, ?inbox_closeGlobal, ?inbox_closed.
  all: rewrite ?lookup_alter_ne by lia.
  all: rewrite ?lookup_insert_ne by lia.
  all: try done.
  all: repeat match goal with
         | H : <[_ := []]> _ !! _ = Some _ |- _ =>
             rewrite lookup_insert_eq in H; simplify_eq
         end.
  all: rewrite ?sendAll_lookup_notin; try done.
  all: first [apply not_elem_of_nil | by eapply Hn].
Qed.

Lemma Untracked_run s inputs ws :
  Untracked s ws → inboxOf (run path_relative s inputs) ws = inboxOf s ws.
Proof.
  revert s. induction inputs as [|i inputs IH]; intros s Hu; simpl; [done|].
  destruct (Untracked_step s i ws Hu) as [Hu' <-]. by apply IH.
Qed.

Lemma sendAll_is_Some cs m (socks : gmap nat Socket) ws :
  is_Some (sendAll cs m socks !! ws) ↔ is_Some (socks !! ws).
Proof. apply foldl_alter_is_Some. Qed.

Lemma closeAll_is_Some cs (socks : gmap nat Socket) ws :
  is_Some (closeAll cs socks !! ws) ↔ is_Some (socks !! ws).
Proof. apply foldl_alter_is_Some. Qed.

Lemma sendGlobal_is_Some L m (socks : gmap nat Socket) ws :
  is_Some (foldl (λ acc cs, sendAll cs m acc) socks L !! ws) ↔ is_Some (socks !! ws).
Proof.
  revert socks. induction L as [|cs L IH]; intros socks; simpl; [done|].
  by rewrite IH, sendAll_is_Some.
Qed.

Lemma closeGlobal_is_Some L (socks : gmap nat Socket) ws :
  is_Some (foldl (λ acc cs, closeAll cs acc) socks L !! ws) ↔ is_Some (socks !! ws).
Proof.
  revert socks. induction L as [|cs L IH]; intros socks; simpl; [done|].
  by rewrite IH, closeAll_is_Some.
Qed.

Lemma sockets_dom_rebuildProject p trigger s ws :
  is_Some (sockets (rebuildProject p trigger s) !! ws) ↔ is_Some (sockets s !! ws).
Proof.
  destruct s. unfold rebuildProject. crush_ops; by rewrite ?sendAll_is_Some.
Qed.

Lemma sockets_dom_advance ms s ws :
  is_Some (sockets (advance ms s) !! ws) ↔ is_Some (sockets s !! ws).
Proof.
  unfold advance. cbv zeta. set (due := filter _ (timers s)). set (s1 := upd_timers _ s).
  transitivity (is_Some (sockets s1 !! ws)); [|by destruct s].
  transitivity (is_Some (sockets (foldl fire s1 due) !! ws));
    [by destruct (foldl fire s1 due)|].
  generalize s1. induction due as [|t l IH]; intros s0; simpl; [done|].
  rewrite IH. unfold fire. rewrite sockets_dom_rebuildProject. by destruct s0.
Qed.

Lemma SocketsFresh_step s i : SocketsFresh s → SocketsFresh (step s i).
Proof.
  intros Hf. pose proof (nextHandle_step path_relative s i) as Hle. revert Hle.
  unfold SocketsFresh. destruct i; cbn [LivePreview.step].
  10: { intros Hle k. rewrite sockets_dom_advance. intros Hs. specialize (Hf k Hs). lia. }
  all: destruct s; unfold SocketsFresh, LivePreview.fsEvent, dispose, rebuildProject in *;
    crush_ops; intros Hle k.
  all: unfold allConnections; simpl.
  all: rewrite ?sendGlobal_is_Some, ?closeGlobal_is_Some, ?sendAll_is_Some,
         ?closeAll_is_Some, ?lookup_alter, ?lookup_insert;
    repeat case_decide; subst; rewrite ?fmap_is_Some, ?lookup_insert; 
    repeat case_decide; intros Hs; try lia;
    specialize (Hf k Hs); lia.
Qed.

Lemma SocketsFresh_reachable s : reachable path_relative s → SocketsFresh s.
Proof.
  apply reachable_ind; [|intros; by apply SocketsFresh_step].
  intros ws. simpl. rewrite lookup_empty. by intros [? ?].
Qed.


(** *** Viewers that are dropped *)

Lemma setup_effect p port s :
  sockets (setupProject p port s) = sockets s
  ∧ connections (setupProject p port s) = <[p_id p := []]> (connections s)
  ∧ sockets (startPreview p port s) = sockets s
  ∧ connections (startPreview p port s) = <[p_id p := []]> (connections s).
Proof.
  destruct s. crush_ops.
  all: repeat match goal with
         | H : <[_ := []]> _ !! _ = Some _ |- _ =>
             rewrite lookup_insert_eq in H; simplify_eq
         end; done.
Qed.

Lemma bound_Absent s ws sock b :
  ChannelsInv s → sockets s !! ws = Some sock → ws_project sock = b →
  ∀ pid cs, connections s !! pid = Some cs → ws ∈ cs → b = Some pid.
Proof.
  intros [_ Hall] Hs <- pid cs Hc Hin.
  destruct (Hall ws sock Hs) as [_ Hb]. by eapply Hb.
Qed.

Lemma Untracked_setup s i p port ws sock :
  reachable path_relative s →
  i = ISetupProject p port ∨ i = IStartPreview p port →
  sockets s !! ws = Some sock → ws_project sock = Some (p_id p) →
  Untracked (step s i) ws ∧ sockets (step s i) = sockets s.
Proof.
  intros Hr Hi Hs Hp.
  pose proof (ChannelsInv_reachable _ _ Hr) as HI.
  pose proof (SocketsFresh_reachable _ Hr ws (mk_is_Some _ _ Hs)) as Hlt.
  pose proof (nextHandle_step path_relative s i) as Hle.
  destruct (setup_effect p port s) as (E1 & E2 & E3 & E4).
  assert (Absent ws (<[p_id p := []]> (connections s))) as Ha.
  { intros pid cs. rewrite lookup_insert. case_decide.
    - intros [= <-]. apply not_elem_of_nil.
    - intros Hc Hin. pose proof (bound_Absent _ _ _ _ HI Hs Hp _ _ Hc Hin). congruence. }
  destruct Hi as [-> | ->]; cbn [LivePreview.step] in *.
  - split; [|done]. split; [lia|]. by rewrite E2.
  - split; [|done]. split; [lia|]. by rewrite E4.
Qed.

Lemma setDelete_notin ws cs : ws ∉ setDelete ws cs.
Proof. unfold setDelete. rewrite list_elem_of_filter. by intros [? _]. Qed.

Lemma Untracked_socketClosed s ws sock :
  reachable path_relative s → sockets s !! ws = Some sock →
  Untracked (socketClosed ws s) ws
  ∧ sockets (socketClosed ws s) !! ws = Some (closedSocket sock).
Proof.
  intros Hr Hs.
  pose proof (ChannelsInv_reachable _ _ Hr) as HI.
  pose proof (SocketsFresh_reachable _ Hr ws (mk_is_Some _ _ Hs)) as Hlt.
  pose proof (bound_Absent _ _ _ _ HI Hs eq_refl) as Hb.
  clear Hr HI. destruct s. unfold Untracked, Absent. simpl in *.
  unfold socketClosed. simpl. rewrite Hs.
  destruct (ws_project sock) as [b|] eqn:Eb; simpl.
  - destruct (connections0 !! b) as [cs0|] eqn:Ec; simpl.
    + split; [|by rewrite lookup_alter_eq, Hs].
      split; [done|]. intros pid cs. rewrite lookup_alter. case_decide.
      * subst. rewrite Ec. simpl. intros [= <-]. apply setDelete_notin.
      * intros Hc Hin. specialize (Hb _ _ Hc Hin). congruence.
    + split; [|by rewrite lookup_alter_eq, Hs].
      split; [done|]. intros pid cs Hc Hin. specialize (Hb _ _ Hc Hin). congruence.
  - split; [|by rewrite lookup_alter_eq, Hs].
    split; [done|]. intros pid cs Hc Hin. specialize (Hb _ _ Hc Hin). done.
Qed.

Lemma Untracked_stopPreview s pid conns ws sock :
  reachable path_relative s → connections s !! pid = Some conns → ws ∈ conns →
  sockets s !! ws = Some sock →
  Untracked (stopPreview pid s).1 ws
  ∧ inboxOf (stopPreview pid s).1 ws = Some (ws_inbox sock).
Proof.
  intros Hr Hc Hin Hs.
  pose proof (ChannelsInv_reachable _ _ Hr) as HI.
  pose proof (SocketsFresh_reachable _ Hr ws (mk_is_Some _ _ Hs)) as Hlt.
  pose proof (bound_Absent _ _ _ _ HI Hs eq_refl) as Hb.
  pose proof (Hb _ _ Hc Hin) as Hp.
  assert (Absent ws (delete pid (connections s))) as Ha.
  { intros pid' cs. rewrite lookup_delete. case_decide; [done|].
    intros Hc' Hin'. specialize (Hb _ _ Hc' Hin'). congruence. }
  clear Hr HI Hb. destruct s. unfold Untracked, inboxOf. simpl in *.
  unfold stopPreview. simpl.
  destruct (projectWatchers0 !! pid); simpl; rewrite Hc; simpl;
    destruct (previewServers0 !! pid); simpl; (split; [done|]).
  all: unfold broadcastGlobal, allConnections; simpl.
  all: rewrite ?Absent_sendGlobal by done.
  all: by rewrite inbox_closeAll, Hs.
Qed.


(** X13. Setting a project up (again) reaches no viewer and drops the ones
    it had: [setupProject] and [startPreview] send nothing to any socket
    (the set of the project is emptied before [project-added] and
    [preview-started] are broadcast to it), and a socket that was open for
    the project before receives no message afterwards, whatever happens. *)
Theorem restart_drops_earlier_viewers (s : State) (i : Input) (p : Project)
    (port : nat) (inputs : list Input) (ws : nat) (sock : Socket) :
  reachable path_relative s →
  i = ISetupProject p port ∨ i = IStartPreview p port →
  sockets s !! ws = Some sock → ws_project sock = Some (p_id p) →
  sockets (step s i) = sockets s
  ∧ connections (step s i) !! p_id p = Some []
  ∧ inboxOf (run path_relative (step s i) inputs) ws = Some (ws_inbox sock).
Proof.
  intros Hr Hi Hs Hp.
  destruct (Untracked_setup s i p port ws sock Hr Hi Hs Hp) as [Hu Heq].
  split; [done|]. split.
  - destruct (setup_effect p port s) as (_ & E2 & _ & E4).
    destruct Hi as [-> | ->]; cbn [LivePreview.step]; rewrite ?E2, ?E4;
      by rewrite lookup_insert_eq.
  - rewrite (Untracked_run _ _ _ Hu). unfold inboxOf. by rewrite Heq, Hs.
Qed.

(** X14. After the close event of a socket has been handled the socket is
    closed, sits in no set of [connections], and its inbox never changes
    again, whatever happens. *)
Theorem closed_socket_hears_nothing (s : State) (inputs : list Input) (ws : nat)
    (sock : Socket) :
  reachable path_relative s → sockets s !! ws = Some sock →
  let s' := socketClosed ws s in
  sockets s' !! ws = Some (closedSocket sock)
  ∧ (∀ pid cs, connections s' !! pid = Some cs → ws ∉ cs)
  ∧ inboxOf (run path_relative s' inputs) ws = Some (ws_inbox sock).
Proof.
  intros Hr Hs s'.
  destruct (Untracked_socketClosed s ws sock Hr Hs) as [Hu Hc]. fold s' in Hu, Hc.
  split; [done|]. split; [apply Hu|].
  rewrite (Untracked_run _ _ _ Hu). unfold inboxOf. by rewrite Hc.
Qed.

(** X15. The sockets of a project that [stopPreview] is called for have
    received their last message: neither the [preview-stopped] broadcast of
    that call nor anything that happens later reaches them. *)
Theorem stopped_viewers_hear_nothing (s : State) (inputs : list Input)
    (pid : string) (conns : list nat) (ws : nat) (sock : Socket) :
  reachable path_relative s → connections s !! pid = Some conns → ws ∈ conns →
  sockets s !! ws = Some sock →
  inboxOf (run path_relative (stopPreview pid s).1 inputs) ws = Some (ws_inbox sock).
Proof.
  intros Hr Hc Hin Hs.
  destruct (Untracked_stopPreview s pid conns ws sock Hr Hc Hin Hs) as [Hu Hi].
  by rewrite (Untracked_run _ _ _ Hu).
Qed.

End WithPath.
End ViewerFacts.

Module RuntimeFacts.
Import JsString JsStringFacts LivePreview Observe IgnoreFacts PreviewFacts
  PreviewInvariants SandboxOpsFacts PermissionFacts PreviewMoreFacts ViewerFacts.
#[local] Arguments startPreview : simpl never.
#[local] Arguments setupProject : simpl never.
#[local] Arguments rebuildProject : simpl never.
#[local] Arguments compileDone : simpl never.
#[local] Arguments LivePreview.handleFileChange : simpl never.
#[local] Arguments handleWebSocketConnection : simpl never.
#[local] Arguments socketClosed : simpl never.
#[local] Arguments stopPreview : simpl never.
#[local] Arguments dispose : simpl never.
#[local] Arguments broadcastGlobal : simpl never.
#[local] Arguments broadcastToProject : simpl never.
#[local] Arguments LivePreview.fsEvent : simpl never.
#[local] Arguments watcherError : simpl never.
#[local] Arguments advance : simpl never.
#[local] Arguments fire : simpl never.

(** *** Sets of sockets *)

Lemma setAdd_NoDup n cs : NoDup cs → NoDup (setAdd n cs).
Proof.
  intros Hnd. unfold setAdd. case_decide; [done|].
  apply NoDup_app. split; [done|]. split; [|apply NoDup_singleton].
  intros x Hx ->%list_elem_of_singleton. done.
Qed.

Lemma setAdd_in n cs : n ∈ setAdd n cs.
Proof.
  unfold setAdd. case_decide; [done|]. apply elem_of_app. right. by left.
Qed.

Lemma setDelete_NoDup n cs : NoDup cs → NoDup (setDelete n cs).
Proof. intros Hnd. by apply NoDup_filter. Qed.

Lemma setDelete_setAdd n cs : n ∉ cs → setDelete n (setAdd n cs) = cs.
Proof.
  intros Hn. unfold setAdd. rewrite decide_False by done.
  unfold setDelete. rewrite filter_app.
  rewrite (filter_none (λ y, y ≠ n) [n]).
  - rewrite app_nil_r. induction cs as [|c cs IH]; [done|].
    apply not_elem_of_cons in Hn as [Hne Hn].
    rewrite filter_cons_True by done. f_equal. by apply IH.
  - intros x ->%list_elem_of_singleton Hx. done.
Qed.

Lemma filter_filter_within {A} (P1 P2 : A → Prop)
    `{!∀ x, Decision (P1 x), !∀ x, Decision (P2 x)} (l : list A) :
  (∀ x, x ∈ l → P1 x → P2 x) → filter P1 (filter P2 l) = filter P1 l.
Proof.
  induction l as [|a l IH]; intros Himp; [done|].
  assert (filter P1 (filter P2 l) = filter P1 l) as IH'.
  { apply IH. intros x Hx. apply Himp. by right. }
  rewrite (filter_cons P2). destruct (decide (P2 a)) as [H2|H2].
  - rewrite !(filter_cons P1). by rewrite IH'.
  - rewrite IH'. rewrite (filter_cons P1). rewrite decide_False; [done|].
    intros H1. apply H2, Himp; [by left | done].
Qed.

Lemma connect_close_set (c : gmap string (list nat)) k n cs :
  c !! k = Some cs → n ∉ cs →
  alter (setDelete n) k (alter (setAdd n) k c) = <[k := cs]> c.
Proof.
  intros Hc Hn. apply map_eq. intros k'.
  destruct (decide (k = k')) as [<-|Hne].
  - rewrite !lookup_alter_eq, lookup_insert_eq, Hc.
    change (Some (setDelete n (setAdd n cs)) = Some cs).
    by rewrite setDelete_setAdd.
  - by rewrite !lookup_alter_ne, lookup_insert_ne.
Qed.

(** *** Closing everything *)

Lemma foldl_alter_idemp {V} (f : V → V) (l : list nat) (m : gmap nat V) (k : nat) :
  (∀ v, f (f v) = f v) →
  foldl (λ acc w, alter f w acc) m l !! k
  = if decide (k ∈ l) then f <$> m !! k else m !! k.
Proof.
  intros Hf. revert m. induction l as [|w l IH]; intros m; simpl; [done|].
  rewrite IH. destruct (decide (k = w)) as [->|Hne].
  - rewrite lookup_alter_eq.
    destruct (decide (w ∈ w :: l)) as [_|Hn]; [|exfalso; apply Hn; left].
    destruct (decide (w ∈ l)); [|done].
    destruct (m !! w); simpl; [|done]. by rewrite Hf.
  - rewrite lookup_alter_ne by done.
    destruct (decide (k ∈ l)) as [Hin|Hn];
      destruct (decide (k ∈ w :: l)) as [Hin'|Hn']; try done.
    + exfalso. apply Hn'. by right.
    + apply elem_of_cons in Hin' as [?|?]; done.
Qed.

Lemma closeGlobal_lookup L (socks : gmap nat Socket) ws sock :
  socks !! ws = Some sock →
  foldl (λ acc cs, closeAll cs acc) socks L !! ws
  = Some (if decide (Exists (λ cs, ws ∈ cs) L) then closeSocket sock else sock).
Proof.
  revert socks sock. induction L as [|cs L IH]; intros socks sock Hs; simpl.
  - destruct (decide (Exists (λ cs, ws ∈ cs) [])) as [He|_]; [|done].
    inversion He.
  - pose proof (closeAll_lookup cs socks ws) as Hc. rewrite Hs in Hc.
    destruct (decide (ws ∈ cs)) as [Hin|Hn]; simpl in Hc.
    + rewrite (IH _ _ Hc). rewrite closeSocket_idemp.
      destruct (decide (Exists (λ cs, ws ∈ cs) (cs :: L))) as [_|Hn];
        [by case_decide|].
      exfalso. apply Hn. by left.
    + rewrite (IH _ _ Hc). apply f_equal, decide_ext.
      rewrite Exists_cons. split; [by right | by intros [?|?]].
Qed.

Section WithPath.
Variable path_relative : string → string → string.
Local Abbreviation step := (LivePreview.step path_relative).
Local Abbreviation run := (LivePreview.run path_relative).
Local Abbreviation reachable := (LivePreview.reachable path_relative).

Lemma connections_advance ms s : connections (advance ms s) = connections s.
Proof.
  apply (advance_frame connections); try (by intros ? []).
  intros p trigger []. unfold rebuildProject. by crush_ops.
Qed.

Lemma ConnsNoDup_step s i : ConnsNoDup s → ConnsNoDup (step s i).
Proof.
  unfold ConnsNoDup. destruct i; cbn [LivePreview.step]; rewrite ?connections_advance;
    try done.
  all: destruct s; unfold LivePreview.fsEvent, dispose, rebuildProject in *;
    crush_ops; intros Hnd pid cs.
  all: rewrite ?lookup_alter, ?lookup_insert, ?lookup_delete, ?lookup_empty;
    repeat case_decide; subst; rewrite ?lookup_insert, ?lookup_delete;
    repeat case_decide; try done.
  all: try (intros [= <-]; apply NoDup_nil_2).
  all: eauto.
  all: try (simpl; intros [= <-]; apply setAdd_NoDup, NoDup_nil_2).
  all: match goal with
       | |- _ <$> ?c !! ?k = _ → _ => destruct (c !! k) eqn:E; simpl; [|done]
       end; intros [= <-];
       first [apply setAdd_NoDup | apply setDelete_NoDup]; eauto.
Qed.

Lemma ConnsNoDup_reachable s : reachable s → ConnsNoDup s.
Proof.
  apply reachable_ind; [|intros; by apply ConnsNoDup_step].
  intros pid cs. simpl. by rewrite lookup_empty.
Qed.

(** X16. In every reachable state [broadcastToProject] appends the message
    once to the inbox of each socket of the project's set that is open, and
    leaves every other socket (closing or closed ones, and the sockets of
    other projects) as it is. *)
Theorem broadcast_reaches_the_set_once (s : State) (pid : string) (m : Message)
    (conns : list nat) (ws : nat) (sock : Socket) :
  reachable s → connections s !! pid = Some conns → sockets s !! ws = Some sock →
  sockets (broadcastToProject pid m s) !! ws
  = Some (if decide (ws ∈ conns ∧ ws_readyState sock = OPEN)
          then {| ws_readyState := OPEN; ws_project := ws_project sock;
                  ws_inbox := ws_inbox sock ++ [m] |}
          else sock).
Proof.
  intros Hr Hc Hs. pose proof (ConnsNoDup_reachable s Hr pid conns Hc) as Hnd.
  clear Hr. destruct s. simpl in *. unfold broadcastToProject. simpl. rewrite Hc. simpl.
  rewrite sendAll_lookup by done. rewrite Hs.
  destruct (decide (ws ∈ conns)) as [Hin|Hn]; simpl.
  - unfold deliver. destruct (ws_readyState sock) eqn:E.
    + rewrite decide_True by done. done.
    + rewrite decide_False; [done|]. intros [_ ?]. done.
    + rewrite decide_False; [done|]. intros [_ ?]. done.
  - rewrite decide_False; [done|]. by intros [? _].
Qed.

(** X17. A socket that connects for a project id and closes again leaves
    the set of that id as it was, except that an id that had no set now has
    an empty one (also when no such project exists); the socket is closed
    and still bound to the id. *)
Theorem connect_then_close (s : State) (projectId : string) :
  reachable s → projectId ≠ EmptyString →
  let ws := nextHandle s in
  let s' := socketClosed ws (handleWebSocketConnection (Some projectId) s) in
  connections s' = <[projectId := default [] (connections s !! projectId)]> (connections s)
  ∧ ws_readyState <$> sockets s' !! ws = Some CLOSED
  ∧ ws_project <$> sockets s' !! ws = Some (Some projectId).
Proof.
  intros Hr Hne.
  pose proof (ChannelsInv_reachable _ _ Hr) as [Hb _].
  assert (∀ cs, connections s !! projectId = Some cs → nextHandle s ∉ cs) as Hfresh.
  { intros cs Hc Hin. specialize (Hb _ _ _ Hc Hin). lia. }
  clear Hr Hb. destruct s. simpl in *.
  destruct projectId as [|a rest]; [done|].
  unfold handleWebSocketConnection, socketClosed, fresh. simpl.
  destruct (connections0 !! String a rest) as [cs|] eqn:Ec; simpl;
    destruct (previewServers0 !! String a rest) as [info|] eqn:Ep; simpl;
    rewrite ?lookup_alter_eq, ?lookup_insert_eq; simpl;
    rewrite ?lookup_alter_eq, ?lookup_insert_eq, ?Ec; simpl;
    rewrite ?lookup_alter_eq, ?lookup_insert_eq; simpl.
  all: (split; [|done]).
  all: first [ by apply connect_close_set; eauto
             | rewrite (connect_close_set _ _ _ []);
               [by rewrite insert_insert_eq | by rewrite lookup_insert_eq
               | apply not_elem_of_nil] ].
Qed.

(** *** Debounce timers *)

Lemma timers_step s i :
  match i with
  | IFsEvent _ _ _ | IAdvance _ => True
  | _ => timers (step s i) = timers s ∧ rebuildTimeouts (step s i) = rebuildTimeouts s
  end.
Proof.
  destruct i; cbn [LivePreview.step]; try done.
  all: destruct s; unfold LivePreview.fsEvent, dispose, rebuildProject; by crush_ops.
Qed.

Lemma nextHandle_handleFileChange p filePath ty s :
  nextHandle (LivePreview.handleFileChange path_relative p filePath ty s) = S (nextHandle s).
Proof. destruct s. by crush_ops. Qed.

Lemma TimersUniq_frame s s' :
  timers s' = timers s → rebuildTimeouts s' = rebuildTimeouts s →
  nextHandle s ≤ nextHandle s' → TimersUniq s → TimersUniq s'.
Proof.
  intros Ht Hr Hle (H1 & H2 & H3 & H4). unfold TimersUniq, TimersOk.
  rewrite Ht, Hr. repeat split; try done.
  intros pid t Hin. specialize (H2 _ _ Hin). lia.
Qed.

Lemma TimersUniq_handleFileChange p filePath ty s :
  TimersUniq s → TimersUniq (LivePreview.handleFileChange path_relative p filePath ty s).
Proof.
  intros (H1 & H2 & H3 & H4).
  pose proof (TimersOk_handleFileChange path_relative p filePath ty s H1) as H1'.
  destruct (handleFileChange_effect path_relative p filePath ty s) as (Et & Er & _ & _).
  pose proof (nextHandle_handleFileChange p filePath ty s) as En.
  split; [done|]. rewrite Et, Er, En. split; [|split].
  - intros pid t. rewrite lookup_insert. case_decide; [intros [= <-]; lia|].
    intros Hin. specialize (H2 _ _ Hin). lia.
  - intros a b t. rewrite !lookup_insert. repeat case_decide; subst; try done.
    + intros [= <-] Hin. specialize (H2 _ _ Hin). lia.
    + intros Hin [= <-]. specialize (H2 _ _ Hin). lia.
    + apply H3.
  - rewrite fmap_app. apply NoDup_app. split; [|split].
    + destruct (rebuildTimeouts s !! p_id p); [|done].
      eapply sublist_NoDup; [exact H4|]. apply fmap_sublist, sublist_filter.
    + intros x Hx ->%list_elem_of_singleton.
      apply list_elem_of_fmap in Hx as (tm & Hid & Hin).
      assert (tm ∈ timers s) as Hin'.
      { destruct (rebuildTimeouts s !! p_id p); [|done].
        by apply list_elem_of_filter in Hin as [_ ?]. }
      specialize (H1 _ Hin'). specialize (H2 _ _ H1). simpl in Hid. lia.
    + apply NoDup_singleton.
Qed.

Lemma TimersUniq_advance ms s : TimersUniq s → TimersUniq (advance ms s).
Proof.
  intros (H1 & H2 & H3 & H4).
  pose proof (TimersOk_advance ms s H1) as H1'.
  destruct (advance_effect "" ms s) as (Et & Er & _ & _).
  pose proof (nextHandle_step (λ _ _, EmptyString) s (IAdvance ms)) as Hle.
  cbn [LivePreview.step] in Hle.
  split; [done|]. rewrite Et, Er. split; [|split; [done|]].
  - intros pid t Hin. specialize (H2 _ _ Hin). lia.
  - eapply sublist_NoDup; [exact H4|]. apply fmap_sublist, sublist_filter.
Qed.

Lemma TimersUniq_step s i : TimersUniq s → TimersUniq (step s i).
Proof.
  intros HT. pose proof (timers_step s i) as Hf.
  pose proof (nextHandle_step path_relative s i) as Hle.
  destruct i.
  5: { cbn [LivePreview.step]. unfold LivePreview.fsEvent.
       repeat case_match; try done. by apply TimersUniq_handleFileChange. }
  9: by apply TimersUniq_advance.
  all: destruct Hf as [Ht Hr]; by eapply TimersUniq_frame.
Qed.

Lemma TimersUniq_reachable s : reachable s → TimersUniq s.
Proof.
  apply reachable_ind; [|intros; by apply TimersUniq_step].
  split; [by intros t ?%elem_of_nil|]. simpl.
  split; [intros ??; by rewrite lookup_empty|].
  split; [intros ???; by rewrite lookup_empty|]. apply NoDup_nil_2.
Qed.

(** X18. In every reachable state at most one debounce timer is pending
    for a project id. *)
Theorem one_pending_timer_per_project (s : State) (pid : string) :
  reachable s → List.length (timersOf pid (timers s)) ≤ 1.
Proof.
  intros (H1 & _ & _ & H4)%TimersUniq_reachable.
  assert (NoDup (t_id <$> timersOf pid (timers s))) as Hnd.
  { eapply sublist_NoDup; [exact H4|]. apply fmap_sublist, sublist_filter. }
  assert (∀ tm, tm ∈ timersOf pid (timers s) → rebuildTimeouts s !! pid = Some (t_id tm)) as Hid.
  { intros tm [Hp Hin]%list_elem_of_filter. rewrite <- Hp. by apply H1. }
  destruct (timersOf pid (timers s)) as [|a [|b l]]; simpl; [lia|lia|].
  exfalso. pose proof (Hid a ltac:(left)) as Ha.
  pose proof (Hid b ltac:(right; left)) as Hb.
  rewrite Ha in Hb. injection Hb as Hb. simpl in Hnd.
  apply NoDup_cons in Hnd as [Hn _]. apply Hn. rewrite Hb. left.
Qed.

(** X19. Debouncing is per project: in every reachable state a file change
    of one project leaves the pending timers of every other project id as
    they are. *)
Theorem debounce_is_per_project (s : State) (p : Project) (filePath : string)
    (ty : ChangeType) (pid : string) :
  reachable s → pid ≠ p_id p →
  timersOf pid (timers (LivePreview.handleFileChange path_relative p filePath ty s))
  = timersOf pid (timers s).
Proof.
  intros (H1 & _ & H3 & _)%TimersUniq_reachable Hne.
  destruct (handleFileChange_effect path_relative p filePath ty s) as (-> & _).
  unfold timersOf. rewrite filter_app.
  rewrite (filter_none _ [_]); [rewrite app_nil_r|].
  2: { intros x ->%list_elem_of_singleton. simpl. congruence. }
  destruct (rebuildTimeouts s !! p_id p) as [t|] eqn:E; [|done].
  apply filter_filter_within. intros tm Hin Hp Hid. apply Hne.
  apply (H3 pid (p_id p) t); [|done]. rewrite <- Hp, <- Hid. by apply H1.
Qed.

(** X20. [dispose] closes every watcher in [projectWatchers] and calls
    [close()] on every socket of every set; it stops no server, cancels no
    timer and keeps [previewServers] as it is.  With any project in
    [previewServers] it throws before the [clear()] calls, so that
    [projectWatchers], [connections] and [rebuildQueue] keep their contents
    and nothing is logged. *)
Theorem dispose_effect (s : State) :
  let s' := (dispose s).1 in
  (∀ pid conns ws sock,
     connections s !! pid = Some conns → ws ∈ conns → sockets s !! ws = Some sock →
     sockets s' !! ws = Some (closeSocket sock))
  ∧ (∀ pid w wt,
       projectWatchers s !! pid = Some w → watchers s !! w = Some wt →
       watchers s' !! w = Some (closeWatcher wt))
  ∧ httpServers s' = httpServers s
  ∧ timers s' = timers s
  ∧ rebuildTimeouts s' = rebuildTimeouts s
  ∧ previewServers s' = previewServers s
  ∧ (previewServers s ≠ ∅ →
     (dispose s).2 = Thrown closeError
     ∧ projectWatchers s' = projectWatchers s
     ∧ connections s' = connections s
     ∧ rebuildQueue s' = rebuildQueue s
     ∧ console s' = console s).
Proof.
  intros s'.
  assert (∀ pid conns ws sock,
     connections s !! pid = Some conns → ws ∈ conns → sockets s !! ws = Some sock →
     foldl (λ acc cs, closeAll cs acc) (sockets s) (allConnections s) !! ws
     = Some (closeSocket sock)) as Hsock.
  { intros pid conns ws sock Hc Hin Hs. rewrite (closeGlobal_lookup _ _ _ _ Hs).
    rewrite decide_True; [done|]. apply Exists_exists. exists conns. split; [|done].
    unfold allConnections. apply list_elem_of_fmap. exists (pid, conns).
    split; [done|]. by apply elem_of_map_to_list. }
  assert (∀ pid w wt,
       projectWatchers s !! pid = Some w → watchers s !! w = Some wt →
       foldl (λ acc w, alter closeWatcher w acc) (watchers s)
         (map_to_list (projectWatchers s)).*2 !! w
       = Some (closeWatcher wt)) as Hwat.
  { intros pid w wt Hp Hw. rewrite foldl_alter_idemp by done.
    rewrite decide_True; [by rewrite Hw|].
    apply list_elem_of_fmap. exists (pid, w). split; [done|].
    by apply elem_of_map_to_list. }
  subst s'. destruct s. unfold dispose, allConnections in *. simpl in *.
  destruct (decide (previewServers0 = ∅)) as [->|Hne]; simpl.
  - repeat split; try done.
  - repeat split; try done.
Qed.


(** X21. In every reachable state a socket that connects for the id of a
    project that was set up is open, bound to the id, a member of the set of
    the id, and has received exactly one message: [project-state] with the
    url [/projects/<id>], the status [ready] and the port of the entry, on
    which a project server is listening. *)
Theorem viewer_is_greeted_with_project_state (s : State) (projectId : string)
    (info : ServerInfo) :
  reachable s → projectId ≠ EmptyString →
  previewServers s !! projectId = Some info →
  let s' := handleWebSocketConnection (Some projectId) s in
  sockets s' !! nextHandle s
  = Some {| ws_readyState := OPEN; ws_project := Some projectId;
            ws_inbox := [MProjectState projectId ("/projects/" +:+ projectId)
                           "ready" (si_port info)] |}
  ∧ (∃ cs, connections s' !! projectId = Some cs ∧ nextHandle s ∈ cs)
  ∧ (∃ srv, httpServers s' !! sb_server (si_server info) = Some srv
            ∧ hs_port srv = si_port info ∧ hs_listening srv = true).
Proof.
  intros Hr Hne Hin.
  destruct (RegistryOk_reachable path_relative s Hr) as [[He _] _].
  destruct (He projectId info Hin) as (Hid & Hurl & Hst & _ & Hsrv).
  clear Hr He. destruct s. simpl in *.
  destruct projectId as [|a rest]; [done|].
  unfold handleWebSocketConnection, fresh. simpl.
  destruct (connections0 !! String a rest) as [cs|] eqn:Ec; simpl;
    rewrite ?lookup_alter_eq, ?lookup_insert_eq, ?Hin; simpl;
    rewrite ?lookup_alter_eq, ?lookup_insert_eq, ?Ec, ?Hurl, ?Hst; simpl.
  all: split; [done|]; split; [|by eexists].
  all: eexists; split; [done|]; apply setAdd_in.
Qed.


(** *** Watchers *)

Lemma closeWatcher_closed wt : w_open wt = false → closeWatcher wt = wt.
Proof. destruct wt as [p o]. unfold closeWatcher. simpl. by intros ->. Qed.

Lemma watchers_step s i w wt :
  HandlesFresh s → watchers s !! w = Some wt → w_open wt = false →
  watchers (step s i) !! w = Some wt.
Proof.
  intros [_ Hw] Hin Hc. specialize (Hw w (mk_is_Some _ _ Hin)).
  destruct i; cbn [LivePreview.step]; rewrite ?watchers_advance; try done.
  all: destruct s; unfold LivePreview.fsEvent, dispose, rebuildProject in *;
    crush_ops.
  all: rewrite ?lookup_insert_ne by lia; try done.
  all: rewrite ?foldl_alter_idemp by done.
  all: rewrite ?lookup_alter; repeat case_decide; subst; rewrite ?Hin; simpl;
    rewrite ?closeWatcher_closed by done; done.
Qed.

(** X22. A watcher that was closed is never opened again or replaced:
    whatever happens, it stays closed under its handle, and file events
    from it change nothing ([startPreview] opens a new watcher instead). *)
Theorem closed_watcher_stays_closed (s : State) (inputs : list Input) (w : nat)
    (wt : Watcher) (filePath : string) (ty : ChangeType) :
  reachable s → watchers s !! w = Some wt → w_open wt = false →
  watchers (run s inputs) !! w = Some wt
  ∧ step (run s inputs) (IFsEvent w filePath ty) = run s inputs.
Proof.
  intros Hr Hin Hc.
  assert (watchers (run s inputs) !! w = Some wt) as Hw.
  { pose proof (HandlesFresh_reachable _ _ Hr) as Hf. clear Hr.
    revert s Hf Hin. induction inputs as [|i inputs IH]; intros s Hf Hin; simpl; [done|].
    apply IH; [by apply HandlesFresh_step | by apply watchers_step]. }
  split; [done|]. cbn [LivePreview.step]. unfold LivePreview.fsEvent.
  by rewrite Hw, Hc.
Qed.

End WithPath.
End RuntimeFacts.

(** ** The further properties on concrete runs *)

Module SessionFacts.
Import JsString LivePreview Observe SecuritySandbox SandboxOps PreviewInvariants
  Scenario Sessions.

Lemma viewing_reachable : reachable relativeTo viewing.
Proof. by exists [ISetupProject app 4000; IWsConnect (Some "app")]. Qed.

Lemma twoProjects_reachable : reachable relativeTo twoProjects.
Proof.
  by exists [ISetupProject app 4000; ISetupProject tsApp 4001;
             IFsEvent 1 "/tmp/p/a.txt" modified].
Qed.

Lemma stopped_reachable : reachable relativeTo stopped.
Proof. by exists [ISetupProject app 4000; IStopPreview "app"]. Qed.

Lemma getSecurityEvents_slice_witness :
  (0 < 100)%Z
  ∧ getSecurityEvents 100 sandbox
    = drop (List.length (securityEvents sandbox) - Z.to_nat 100)
        (securityEvents sandbox).
Proof.
  assert (0 < 100)%Z as Hpos by lia.
  split; [exact Hpos |].
  apply (proj1 (proj2 (SandboxOpsFacts.getSecurityEvents_slice 100 sandbox)) Hpos).
Defined.

Lemma workspace_under_blocked_path_is_denied_witness :
  (startsWith "/home/dev/Silhouette-V5-Workspace" "/home" = true ∨ startsWith "/home/dev/Silhouette-V5-Workspace" "/root" = true)
  ∧ startsWith (resolved "/home/dev/Silhouette-V5-Workspace/app/index.html")
      "/home/dev/Silhouette-V5-Workspace" = true
  ∧ (checkFilePermission resolved noStat
       "/home/dev/Silhouette-V5-Workspace/app/index.html" "read" sandbox).1 = false.
Proof.
  split; [left; reflexivity |]. split; [reflexivity |].
  apply (SandboxOpsFacts.workspace_under_blocked_path_is_denied resolved noStat
           false "/home/dev/Silhouette-V5-Workspace" "/srv/silhouette" "/srv/node_modules"
           "/home/dev/Silhouette-V5-Workspace/app/index.html" "read"
           (or_introl eq_refl) eq_refl).
Defined.

Lemma tmp_prefix_is_granted_witness :
  startsWith (resolved "/tmpfiles/notes.txt") "/tmp" = true
  ∧ "read" ≠ "write"
  ∧ (checkFilePermission resolved noStat "/tmpfiles/notes.txt" "read" sandbox).1
    = true.
Proof.
  assert ("read" ≠ "write") as Hop by discriminate.
  split; [reflexivity |]. split; [exact Hop |].
  apply (SandboxOpsFacts.tmp_prefix_is_granted resolved noStat false "/home/dev/Silhouette-V5-Workspace"
           "/srv/silhouette" "/srv/node_modules" "/tmpfiles/notes.txt" "read" eq_refl Hop).
Defined.

Lemma only_write_looks_at_size_witness :
  "delete" ≠ "write"
  ∧ (checkFilePermission resolved noStat "/tmp/p/a.txt" "delete" sandbox).1
    = (checkFilePermission resolved noStat "/tmp/p/a.txt" "read" sandbox).1.
Proof.
  assert ("delete" ≠ "write") as Hop by discriminate.
  split; [exact Hop |].
  apply (proj1 (SandboxOpsFacts.only_write_looks_at_size resolved noStat
                  "/tmp/p/a.txt" "delete" sandbox) Hop).
Defined.

Lemma addAllowedPath_grants_below_witness :
  existsb (λ b, startsWith (resolved "/srv/data/x.json") b) (blockedPaths sandbox)
  = false
  ∧ startsWith (resolved "/srv/data/x.json") (resolved "/srv/data") = true
  ∧ "read" ≠ "write"
  ∧ (checkFilePermission resolved noStat "/srv/data/x.json" "read"
       (addAllowedPath resolved "/srv/data" sandbox)).1 = true.
Proof.
  assert ("read" ≠ "write") as Hop by discriminate.
  split; [reflexivity |]. split; [reflexivity |]. split; [exact Hop |].
  apply (proj2 (proj2 (proj2 (SandboxOpsFacts.addAllowedPath_grants_below resolved
                                noStat "/srv/data" "/srv/data/x.json" "read"
                                sandbox)))
           eq_refl eq_refl Hop).
Defined.

Lemma process_check_is_by_substring_witness :
  includes "--suffix" "su" = true
  ∧ checkProcessPermission "tar" ["-c"; "--suffix"; "x"] = false.
Proof.
  split; [reflexivity |].
  apply (proj2 (proj2 (SandboxOpsFacts.process_check_is_by_substring "tar"
                         ["-c"; "--suffix"; "x"] []))
           "--suffix").
  - set_solver.
  - reflexivity.
Defined.

Lemma ignored_inside_any_path_witness :
  shouldIgnoreFile "dist" = true
  ∧ shouldIgnoreFile ("/tmp/p/src/" +:+ "dist" +:+ "ance.js") = true.
Proof.
  split; [reflexivity |].
  apply (PreviewMoreFacts.ignored_inside_any_path "/tmp/p/src/" "dist" "ance.js" eq_refl).
Defined.

Lemma registry_entry_shape_witness :
  reachable relativeTo ready
  ∧ previewServers ready !! "app" = Some (entryOf app 4000 initial)
  ∧ si_url (entryOf app 4000 initial) = "/projects/app"
  ∧ si_status (entryOf app 4000 initial) = "ready".
Proof.
  split; [apply ScenarioFacts.ready_reachable |]. split; [reflexivity |].
  destruct (PreviewMoreFacts.registry_entry_shape relativeTo ready "app"
              (entryOf app 4000 initial) ScenarioFacts.ready_reachable eq_refl)
    as (_ & Hurl & Hstatus & _).
  split; [exact Hurl | exact Hstatus].
Defined.

Lemma servers_are_never_closed_witness :
  reachable relativeTo ready
  ∧ httpServers ready !! 0 = Some (serverOf app 4000)
  ∧ httpServers (run relativeTo ready [IStopPreview "app"; IDispose]) !! 0
    = Some (serverOf app 4000).
Proof.
  split; [apply ScenarioFacts.ready_reachable |]. split; [reflexivity |].
  apply (PreviewMoreFacts.servers_are_never_closed relativeTo ready
           [IStopPreview "app"; IDispose] 0 (serverOf app 4000)
           ScenarioFacts.ready_reachable eq_refl).
Defined.

Lemma set_up_project_is_never_released_witness :
  is_Some (previewServers ready !! "app")
  ∧ (dispose (run relativeTo ready [IStopPreview "app"])).2 = Thrown closeError.
Proof.
  assert (is_Some (previewServers ready !! "app")) as Hentry.
  { vm_compute. eauto. }
  split; [exact Hentry |].
  apply (PreviewMoreFacts.set_up_project_is_never_released relativeTo ready
           [IStopPreview "app"] "app" Hentry).
Defined.

Lemma restart_drops_earlier_viewers_witness :
  reachable relativeTo viewing
  ∧ sockets viewing !! 2 = Some viewer
  ∧ ws_project viewer = Some (p_id app)
  ∧ inboxOf (run relativeTo (step relativeTo viewing (IStartPreview app 4001))
               [IFsEvent 4 "/tmp/p/a.txt" modified; IAdvance 300]) 2
    = Some (ws_inbox viewer).
Proof.
  split; [apply viewing_reachable |]. split; [reflexivity |]. split; [reflexivity |].
  apply (ViewerFacts.restart_drops_earlier_viewers relativeTo viewing
           (IStartPreview app 4001) app 4001
           [IFsEvent 4 "/tmp/p/a.txt" modified; IAdvance 300] 2 viewer
           viewing_reachable (or_intror eq_refl) eq_refl eq_refl).
Defined.

Lemma closed_socket_hears_nothing_witness :
  reachable relativeTo viewing
  ∧ sockets viewing !! 2 = Some viewer
  ∧ inboxOf (run relativeTo (socketClosed 2 viewing) [IRebuildProject app "manual"]) 2
    = Some (ws_inbox viewer).
Proof.
  split; [apply viewing_reachable |]. split; [reflexivity |].
  apply (ViewerFacts.closed_socket_hears_nothing relativeTo viewing
           [IRebuildProject app "manual"] 2 viewer viewing_reachable eq_refl).
Defined.

Lemma stopped_viewers_hear_nothing_witness :
  reachable relativeTo viewing
  ∧ connections viewing !! "app" = Some [2]
  ∧ 2 ∈ [2]
  ∧ sockets viewing !! 2 = Some viewer
  ∧ inboxOf (run relativeTo (stopPreview "app" viewing).1
               [IRebuildProject app "manual"; IStopPreview "ts"]) 2
    = Some (ws_inbox viewer).
Proof.
  assert (2 ∈ [2]) as Hin by (by left).
  split; [apply viewing_reachable |]. split; [reflexivity |].
  split; [exact Hin |]. split; [reflexivity |].
  apply (ViewerFacts.stopped_viewers_hear_nothing relativeTo viewing
           [IRebuildProject app "manual"; IStopPreview "ts"] "app" [2] 2 viewer
           viewing_reachable eq_refl Hin eq_refl).
Defined.

Lemma broadcast_reaches_the_set_once_witness :
  reachable relativeTo viewing
  ∧ connections viewing !! "app" = Some [2]
  ∧ sockets viewing !! 2 = Some viewer
  ∧ ws_inbox <$> sockets (broadcastToProject "app" (MWatcherError "app" "EMFILE" 7)
                            viewing) !! 2
    = Some [MProjectState "app" "/projects/app" "ready" 4000;
            MWatcherError "app" "EMFILE" 7].
Proof.
  split; [apply viewing_reachable |]. split; [reflexivity |]. split; [reflexivity |].
  rewrite (RuntimeFacts.broadcast_reaches_the_set_once relativeTo viewing "app"
             (MWatcherError "app" "EMFILE" 7) [2] 2 viewer
             viewing_reachable eq_refl eq_refl).
  reflexivity.
Defined.

Lemma connect_then_close_witness :
  reachable relativeTo ready
  ∧ "ghost" ≠ EmptyString
  ∧ connections (socketClosed 2 (handleWebSocketConnection (Some "ghost") ready))
    = <["ghost" := []]> (connections ready).
Proof.
  assert ("ghost" ≠ EmptyString) as Hne by discriminate.
  split; [apply ScenarioFacts.ready_reachable |]. split; [exact Hne |].
  apply (RuntimeFacts.connect_then_close relativeTo ready "ghost"
           ScenarioFacts.ready_reachable Hne).
Defined.

Lemma one_pending_timer_per_project_witness :
  reachable relativeTo twoProjects
  ∧ List.length (timersOf "app" (timers twoProjects)) ≤ 1.
Proof.
  split; [apply twoProjects_reachable |].
  apply (RuntimeFacts.one_pending_timer_per_project relativeTo twoProjects "app"
           twoProjects_reachable).
Defined.

Lemma debounce_is_per_project_witness :
  reachable relativeTo twoProjects
  ∧ "app" ≠ p_id tsApp
  ∧ timersOf "app"
      (timers (handleFileChange relativeTo tsApp "/tmp/ts/main.ts" modified
                 twoProjects))
    = timersOf "app" (timers twoProjects).
Proof.
  assert ("app" ≠ p_id tsApp) as Hne by discriminate.
  split; [apply twoProjects_reachable |]. split; [exact Hne |].
  apply (RuntimeFacts.debounce_is_per_project relativeTo twoProjects tsApp
           "/tmp/ts/main.ts" modified "app" twoProjects_reachable Hne).
Defined.

Lemma dispose_effect_witness :
  previewServers viewing ≠ ∅
  ∧ (dispose viewing).2 = Thrown closeError
  ∧ connections (dispose viewing).1 = connections viewing.
Proof.
  assert (previewServers viewing ≠ ∅) as Hne.
  { intros Hem. assert (previewServers viewing !! "app" = None) as Hn
      by (by rewrite Hem). discriminate Hn. }
  split; [exact Hne |].
  destruct (RuntimeFacts.dispose_effect viewing) as (_ & _ & _ & _ & _ & _ & Hthrow).
  destruct (Hthrow Hne) as (Ht & _ & Hc & _).
  split; [exact Ht | exact Hc].
Defined.

Lemma viewer_is_greeted_with_project_state_witness :
  reachable relativeTo ready
  ∧ "app" ≠ EmptyString
  ∧ previewServers ready !! "app" = Some (entryOf app 4000 initial)
  ∧ sockets (handleWebSocketConnection (Some "app") ready) !! nextHandle ready
    = Some viewer.
Proof.
  assert ("app" ≠ EmptyString) as Hne by discriminate.
  split; [apply ScenarioFacts.ready_reachable |]. split; [exact Hne |].
  split; [reflexivity |].
  apply (RuntimeFacts.viewer_is_greeted_with_project_state relativeTo ready "app"
           (entryOf app 4000 initial) ScenarioFacts.ready_reachable Hne eq_refl).
Defined.

Lemma closed_watcher_stays_closed_witness :
  reachable relativeTo stopped
  ∧ watchers stopped !! 1 = Some {| w_project := app; w_open := false |}
  ∧ step relativeTo (run relativeTo stopped [IRebuildProject app "manual"])
      (IFsEvent 1 "/tmp/p/a.txt" modified)
    = run relativeTo stopped [IRebuildProject app "manual"].
Proof.
  split; [apply stopped_reachable |]. split; [reflexivity |].
  apply (RuntimeFacts.closed_watcher_stays_closed relativeTo stopped
           [IRebuildProject app "manual"] 1 {| w_project := app; w_open := false |}
           "/tmp/p/a.txt" modified stopped_reachable eq_refl eq_refl).
Defined.

End SessionFacts.
